(** * HelixerPrep: the annotation handlers and the transcript interpreter

    A shallow embedding of [annotations.py]: the status machine
    ([TranscriptStatus]), the feature stacker ([sorted_features],
    [stack_matches], [sort_by_bearing], [full_stack_matches]), the piece
    orderer ([sort_pieces], [_extend_to_end], [get_downstream_link], ...)
    and the handler protocol ([add_data], [copy_data_attr_to_other],
    [link_to], [de_link]).

    Python objects are compared by identity throughout the source (the
    records are ORM objects without [__eq__]); an object is therefore
    modelled together with a numeric identity and [==]/[in] become
    comparisons of identities. *)

From Stdlib Require Import ZArith Bool Lia Sorted.
From stdpp Require Import gmap strings list fin_maps functions.

Local Open Scope string_scope.
Local Open Scope Z_scope.

(** ** Exceptions and results *)

Inductive exn : Set :=
| AssertionError
| ValueError
| KeyError
| AttributeError
| IndexError
| TypeError
| IndecipherableLinkageError.

Inductive result (A : Type) : Type :=
| Ok (a : A)
| Raise (e : exn).
Arguments Ok {A} a.
Arguments Raise {A} e.

(** Exceptions propagate: sequencing stops at the first [Raise]. *)
#[global] Instance result_bind : MBind result :=
  fun A B (k : A -> result B) (r : result A) =>
    match r with
    | Ok a => k a
    | Raise e => Raise e
    end.

(** ** type_enums *)

(** Modelled from the spec: the module [type_enums] is not part of the
    sources at hand; the feature types are the five keys of
    [TranscriptStatus._decoder] plus one constructor standing for every
    value the decoder has no entry for. *)
Inductive FeatureType : Set :=
| TRANSCRIBED
| CODING
| INTRON
| TRANS_INTRON
| ERROR
| OTHER_TYPE.

(** Modelled from the spec: the five bearings named by [sort_by_bearing]. *)
Inductive Bearing : Set :=
| START
| OPEN_STATUS
| CLOSE_STATUS
| END
| POINT.

Definition Bearing_eqb (a b : Bearing) : bool :=
  match a, b with
  | START, START | OPEN_STATUS, OPEN_STATUS | CLOSE_STATUS, CLOSE_STATUS
  | END, END | POINT, POINT => true
  | _, _ => false
  end.

(** ** Data records read by the interpreter *)

(** The three ORM classes of features: [UpstreamFeature] and
    [DownstreamFeature] are subclasses of [Feature]. *)
Inductive FeatureClass : Set :=
| PlainFeature
| UpstreamFeature
| DownstreamFeature.

Record Feature : Set := mkFeature {
  f_id : nat;
  f_class : FeatureClass;
  f_type : FeatureType;
  f_bearing : Bearing;
  f_coordinates : nat;
  f_is_plus_strand : bool;
  f_start : Z;
  f_end : Z;
  f_phase : option Z;
  f_transcribed_pieces : list nat
}.

(** ** TranscriptStatus *)

Record TranscriptStatus : Set := mkStatus {
  genic : bool;
  in_intron : bool;
  in_trans_intron : bool;
  in_translated_region : bool;
  seen_start : bool;
  seen_stop : bool;
  erroneous : bool;
  phase : option Z
}.

(** [TranscriptStatus.__init__]: initializes to intergenic. *)
Definition initial_status : TranscriptStatus :=
  {| genic := false; in_intron := false; in_trans_intron := false;
     in_translated_region := false; seen_start := false; seen_stop := false;
     erroneous := false; phase := None |}.

Definition set_genic (b : bool) (s : TranscriptStatus) : TranscriptStatus :=
  {| genic := b; in_intron := in_intron s; in_trans_intron := in_trans_intron s;
     in_translated_region := in_translated_region s; seen_start := seen_start s;
     seen_stop := seen_stop s; erroneous := erroneous s; phase := phase s |}.

Definition set_in_intron (b : bool) (s : TranscriptStatus) : TranscriptStatus :=
  {| genic := genic s; in_intron := b; in_trans_intron := in_trans_intron s;
     in_translated_region := in_translated_region s; seen_start := seen_start s;
     seen_stop := seen_stop s; erroneous := erroneous s; phase := phase s |}.

Definition set_in_trans_intron (b : bool) (s : TranscriptStatus) : TranscriptStatus :=
  {| genic := genic s; in_intron := in_intron s; in_trans_intron := b;
     in_translated_region := in_translated_region s; seen_start := seen_start s;
     seen_stop := seen_stop s; erroneous := erroneous s; phase := phase s |}.

Definition set_erroneous (b : bool) (s : TranscriptStatus) : TranscriptStatus :=
  {| genic := genic s; in_intron := in_intron s; in_trans_intron := in_trans_intron s;
     in_translated_region := in_translated_region s; seen_start := seen_start s;
     seen_stop := seen_stop s; erroneous := b; phase := phase s |}.

(** Keyword arguments of the status callbacks: the only keyword ever passed
    is [phase]; [None] is the empty [**kwargs], [Some p] is [phase=p]. *)
Definition kwargs : Set := option (option Z).

(** A callback without parameters called with [phase=...] is a [TypeError],
    as is [saw_start] called without it. *)
Definition nullary (f : TranscriptStatus -> TranscriptStatus)
  (kw : kwargs) (s : TranscriptStatus) : result TranscriptStatus :=
  match kw with
  | None => Ok (f s)
  | Some _ => Raise TypeError
  end.

Definition saw_tss : TranscriptStatus -> TranscriptStatus := set_genic true.
Definition saw_tts : TranscriptStatus -> TranscriptStatus := set_genic false.

Definition saw_start (p : option Z) (s : TranscriptStatus) : TranscriptStatus :=
  {| genic := genic s; in_intron := in_intron s; in_trans_intron := in_trans_intron s;
     in_translated_region := true; seen_start := true;
     seen_stop := seen_stop s; erroneous := erroneous s; phase := p |}.

Definition exit_coding (s : TranscriptStatus) : TranscriptStatus :=
  {| genic := genic s; in_intron := in_intron s; in_trans_intron := in_trans_intron s;
     in_translated_region := false; seen_start := seen_start s;
     seen_stop := seen_stop s; erroneous := erroneous s; phase := phase s |}.

Definition saw_stop (s : TranscriptStatus) : TranscriptStatus :=
  {| genic := genic s; in_intron := in_intron s; in_trans_intron := in_trans_intron s;
     in_translated_region := false; seen_start := seen_start s;
     seen_stop := true; erroneous := erroneous s; phase := None |}.

Definition splice_open : TranscriptStatus -> TranscriptStatus := set_in_intron true.
Definition splice_close : TranscriptStatus -> TranscriptStatus := set_in_intron false.
Definition trans_splice_open : TranscriptStatus -> TranscriptStatus := set_in_trans_intron true.
Definition trans_splice_close : TranscriptStatus -> TranscriptStatus := set_in_trans_intron false.
Definition error_open : TranscriptStatus -> TranscriptStatus := set_erroneous true.
Definition error_close : TranscriptStatus -> TranscriptStatus := set_erroneous false.

Definition callback : Type := kwargs -> TranscriptStatus -> result TranscriptStatus.

(** [TranscriptStatus._decoder]: the pair (fn_open, fn_close) of a type; a
    type without entry is a [KeyError]. *)
Definition _decoder (t : FeatureType) : result (callback * callback) :=
  match t with
  | TRANSCRIBED => Ok (nullary saw_tss, nullary saw_tts)
  | CODING =>
      Ok ((fun kw s => match kw with
                       | Some p => Ok (saw_start p s)
                       | None => Raise TypeError
                       end),
          nullary exit_coding)
  | INTRON => Ok (nullary splice_open, nullary splice_close)
  | TRANS_INTRON => Ok (nullary trans_splice_open, nullary trans_splice_close)
  | ERROR => Ok (nullary error_open, nullary error_close)
  | OTHER_TYPE => Raise KeyError
  end.

Definition update_for_feature (feature : Feature) (kw : kwargs)
  (s : TranscriptStatus) : result TranscriptStatus :=
  fns ← _decoder (f_type feature);
  match f_bearing feature with
  | START | OPEN_STATUS => fst fns kw s
  | END | CLOSE_STATUS => snd fns kw s
  | POINT => Raise ValueError
  end.

Definition is_utr (s : TranscriptStatus) : bool :=
  genic s && negb (in_intron s || in_translated_region s || in_trans_intron s).

Definition is_5p_utr (s : TranscriptStatus) : bool :=
  is_utr s && negb (seen_start s || seen_stop s).

Definition is_3p_utr (s : TranscriptStatus) : bool :=
  is_utr s && seen_stop s && seen_start s.

Definition is_coding (s : TranscriptStatus) : bool :=
  genic s && in_translated_region s && negb (in_intron s || in_trans_intron s).

Definition is_intronic (s : TranscriptStatus) : bool := in_intron s && genic s.

Definition is_trans_intronic (s : TranscriptStatus) : bool :=
  in_trans_intron s && genic s.

Definition is_intergenic (s : TranscriptStatus) : bool := negb (genic s).

(** [TranscriptInterpBase.update_status]: one feature of a group. *)
Definition update_status_one (s : TranscriptStatus) (feature : Feature)
  : result TranscriptStatus :=
  match f_type feature, f_bearing feature with
  | CODING, START => update_for_feature feature (Some (Some 0)) s
  | CODING, OPEN_STATUS => update_for_feature feature (Some (f_phase feature)) s
  | CODING, END => s' ← update_for_feature feature None s; Ok (saw_stop s')
  | _, _ => update_for_feature feature None s
  end.

(** [TranscriptInterpBase.update_status]: the loop over the aligned features;
    the status object is mutated in place, so the effects of the features
    before a failing one stay (they are lost here with the exception, which
    no caller catches). *)
Fixpoint update_status (s : TranscriptStatus) (aligned_features : list Feature)
  : result TranscriptStatus :=
  match aligned_features with
  | [] => Ok s
  | feature :: rest => s' ← update_status_one s feature; update_status s' rest
  end.

(** Replaying groups one at a time, keeping the status after each. *)
Fixpoint replay (s : TranscriptStatus) (groups : list (list Feature))
  : result (list TranscriptStatus) :=
  match groups with
  | [] => Ok []
  | g :: rest =>
      s' ← update_status s g;
      tl ← replay s' rest;
      Ok (s' :: tl)
  end.

(** ** Position keys *)

(** Modelled from the spec: [pos_cmp_key] is a method of the ORM classes
    [Feature] and [UpDownPair] of [annotations_orm], which is not part of the
    sources at hand.  The interpreter only calls it, compares two keys of
    features with [<] (inside [sorted]) and with [==] (in
    [positional_match]), and two keys of pairs with [==]; so the key types
    and these comparisons are parameters. *)
Class PosCmpKey : Type := {
  pos_key : Type;
  pos_cmp_key : Feature -> pos_key;
  pos_key_ltb : pos_key -> pos_key -> bool;
  pos_key_eqb : pos_key -> pos_key -> bool
}.

(** What Python guarantees for keys that are tuples of numbers, strings and
    booleans: [==] is equality and [<] is a strict total order. *)
Class PosCmpKeyLaws (K : PosCmpKey) : Prop := {
  pos_key_eqb_spec : forall a b : pos_key, pos_key_eqb a b = true <-> a = b;
  pos_key_ltb_irrefl : forall a : pos_key, pos_key_ltb a a = false;
  pos_key_ltb_trans : forall a b c : pos_key,
    pos_key_ltb a b = true -> pos_key_ltb b c = true -> pos_key_ltb a c = true;
  pos_key_ltb_total : forall a b : pos_key,
    pos_key_ltb a b = false -> pos_key_ltb b a = false -> a = b
}.

(** ** Python list primitives *)

(** [sorted(l, key=...)]: Python's sort is stable and compares keys with [<]
    only.  A stable sort has one possible output, so insertion into the
    sorted tail, in front of the first element that is not smaller, computes
    the list Python returns. *)
Fixpoint insert_sorted {A : Type} (lt : A -> A -> bool) (x : A) (l : list A)
  : list A :=
  match l with
  | [] => [x]
  | y :: l' => if lt y x then y :: insert_sorted lt x l' else x :: y :: l'
  end.

Definition sorted {A : Type} (lt : A -> A -> bool) (l : list A) : list A :=
  foldr (insert_sorted lt) [] l.

(** [l[0]] *)
Definition first {A : Type} (l : list A) : result A :=
  match l with
  | [] => Raise IndexError
  | x :: _ => Ok x
  end.

(** [l[-1]] *)
Fixpoint latest {A : Type} (l : list A) : result A :=
  match l with
  | [] => Raise IndexError
  | [x] => Ok x
  | _ :: l' => latest l'
  end.

(** [x in l] on objects compared by identity. *)
Definition contains (x : nat) (l : list nat) : bool :=
  existsb (Nat.eqb x) l.

(** ** Feature stacker *)

Definition positional_match `{PosCmpKey} (feature previous : Feature) : bool :=
  pos_key_eqb (pos_cmp_key feature) (pos_cmp_key previous).

Definition bearing_match (feature previous : Feature) : bool :=
  Bearing_eqb (f_bearing feature) (f_bearing previous).

(** The loop of [stack_matches]: [prev] is the previous element, [current]
    the group being built, [rest] what the iterator still holds. *)
Fixpoint stack_matches_loop {A : Type} (match_fn : A -> A -> bool)
  (prev : A) (current : list A) (rest : list A) : list (list A) :=
  match rest with
  | [] => [current]
  | feature :: rest' =>
      if match_fn feature prev
      then stack_matches_loop match_fn feature (current ++ [feature]) rest'
      else current :: stack_matches_loop match_fn feature [feature] rest'
  end.

(** [stack_matches]: the list of the groups the generator yields. *)
Definition stack_matches {A : Type} (match_fn : A -> A -> bool)
  (features : list A) : list (list A) :=
  match features with
  | [] => []
  | prev :: rest => stack_matches_loop match_fn prev [prev] rest
  end.

(** The [key] dictionary of [sort_by_bearing]. *)
Definition bearing_key (b : Bearing) : Z :=
  match b with
  | START => 3
  | OPEN_STATUS => 2
  | CLOSE_STATUS => 1
  | END => 0
  | POINT => 4
  end.

Definition sort_by_bearing (matches : list Feature) : list Feature :=
  sorted (fun x y => bearing_key (f_bearing x) <? bearing_key (f_bearing y))
         matches.

Definition full_stack_matches `{PosCmpKey} (features : list Feature)
  : list (list Feature) :=
  concat (map (fun matches => stack_matches bearing_match (sort_by_bearing matches))
              (stack_matches positional_match features)).

(** [all([f.attr == features[0].attr for f in features])]: [features[0]] is
    only evaluated once per element, hence never on an empty list. *)
Definition all_equal_first {B : Type} (eqb : B -> B -> bool)
  (attr : Feature -> B) (features : list Feature) : bool :=
  match features with
  | [] => true
  | f0 :: _ => forallb (fun f => eqb (attr f) (attr f0)) features
  end.

(** [TranscriptInterpBase.sorted_features], on [piece.features]. *)
Definition sorted_features `{PosCmpKey} (features : list Feature)
  : result (list Feature) :=
  if negb (all_equal_first Nat.eqb f_coordinates features) then Raise AssertionError
  else if negb (all_equal_first Bool.eqb f_is_plus_strand features) then Raise AssertionError
  else
    let features := sorted (fun x y => pos_key_ltb (pos_cmp_key x) (pos_cmp_key y))
                           features in
    f0 ← first features;
    if negb (f_is_plus_strand f0) then Ok (rev features) else Ok features.

(** ** Piece orderer *)

(** An [UpDownPair] record; both slots are nullable references. *)
Record UpDownPair : Set := mkPair {
  pair_id : nat;
  upstream : option Feature;
  downstream : option Feature
}.

(** Modelled from the spec: [UpDownPair.pos_cmp_key] of [annotations_orm],
    used by [positional_match] when links are stacked. *)
Class PairCmpKey : Type := {
  pair_key : Type;
  pair_pos_cmp_key : UpDownPair -> pair_key;
  pair_key_eqb : pair_key -> pair_key -> bool
}.


(** [positional_match] applied to links. *)
Definition link_positional_match `{PairCmpKey} (link previous : UpDownPair) : bool :=
  pair_key_eqb (pair_pos_cmp_key link) (pair_pos_cmp_key previous).

(** What a [TranscriptInterpBase] reads: the pieces and pairs of
    [self.transcript.data], the features [self.session] can query, and the
    [features] collection of each piece.  Pieces are identified by number. *)
Record TranscriptInterp : Type := mkInterp {
  transcribed_pieces : list nat;
  pairs : list UpDownPair;
  session_features : list Feature;
  piece_features : nat -> list Feature
}.

Definition FeatureClass_eqb (a b : FeatureClass) : bool :=
  match a, b with
  | PlainFeature, PlainFeature | UpstreamFeature, UpstreamFeature
  | DownstreamFeature, DownstreamFeature => true
  | _, _ => false
  end.

(** [self.session.query(cls).all()] *)
Definition query_all (T : TranscriptInterp) (cls : FeatureClass) : list Feature :=
  List.filter (fun x => FeatureClass_eqb (f_class x) cls) (session_features T).

(** [slot == cand] for a nullable slot: identity of the two records. *)
Definition slot_is (slot : option Feature) (cand : Feature) : bool :=
  match slot with
  | Some x => Nat.eqb (f_id x) (f_id cand)
  | None => false
  end.

Definition _find_matching_links (T : TranscriptInterp)
  (updown_candidates : list Feature) (get_upstreams : bool) : list UpDownPair :=
  flat_map (fun cand =>
              if get_upstreams
              then List.filter (fun x => slot_is (downstream x) cand) (pairs T)
              else List.filter (fun x => slot_is (upstream x) cand) (pairs T))
           updown_candidates.

(** [collapsed = [x[0] for x in stacked]] *)
Fixpoint firsts {A : Type} (stacked : list (list A)) : result (list A) :=
  match stacked with
  | [] => Ok []
  | x :: rest => x0 ← first x; tl ← firsts rest; Ok (x0 :: tl)
  end.

Definition _links_list2link `{PairCmpKey} (links : list UpDownPair)
  : result (option UpDownPair) :=
  let stacked := stack_matches link_positional_match links in
  collapsed ← firsts stacked;
  match collapsed with
  | [] => Ok None
  | [x] => Ok (Some x)
  | _ => Raise IndecipherableLinkageError
  end.

Definition get_upstream_link `{PairCmpKey} (T : TranscriptInterp)
  (current_piece : nat) : result (option UpDownPair) :=
  let downstreams := query_all T DownstreamFeature in
  let downstreams_current :=
    List.filter (fun x => contains current_piece (f_transcribed_pieces x)) downstreams in
  let links := _find_matching_links T downstreams_current true in
  _links_list2link links.

Definition get_downstream_link `{PairCmpKey} (T : TranscriptInterp)
  (current_piece : nat) : result (option UpDownPair) :=
  let upstreams := query_all T UpstreamFeature in
  let upstreams_current :=
    List.filter (fun x => contains current_piece (f_transcribed_pieces x)) upstreams in
  let links := _find_matching_links T upstreams_current false in
  _links_list2link links.

(** [_get_one_piece_from_stream]; the stream is the slot of a pair and may be
    [None], on which the attribute access fails. *)
Definition _get_one_piece_from_stream (T : TranscriptInterp)
  (stream : option Feature) : result nat :=
  match stream with
  | None => Raise AttributeError
  | Some stream =>
      let pieces := transcribed_pieces T in
      let matches := List.filter (fun x => contains x pieces)
                                 (f_transcribed_pieces stream) in
      if negb (Nat.eqb (length matches) 1) then Raise AssertionError
      else first matches
  end.

Definition _extend_by_one (ordered_pieces : list nat) (new : nat)
  (downstream : bool) : list nat :=
  if downstream then ordered_pieces ++ [new] else new :: ordered_pieces.

(** One turn of the [while True] loop of [_extend_to_end]: [inl] is the
    [break] with the final list, [inr] the list to continue with. *)
Definition _extend_step `{PairCmpKey} (T : TranscriptInterp)
  (ordered_pieces : list nat) (downstream_dir : bool)
  : result (list nat + list nat) :=
  current ← (if downstream_dir then latest ordered_pieces else first ordered_pieces);
  nextlink ← (if downstream_dir then get_downstream_link T current
              else get_upstream_link T current);
  match nextlink with
  | None => Ok (inl ordered_pieces)
  | Some nextlink =>
      let nextstream := if downstream_dir then downstream nextlink
                        else upstream nextlink in
      nextpiece ← _get_one_piece_from_stream T nextstream;
      if contains nextpiece ordered_pieces then Raise IndecipherableLinkageError
      else Ok (inr (_extend_by_one ordered_pieces nextpiece downstream_dir))
  end.

(** [_extend_to_end]: the loop, bounded by [fuel] turns; [None] when the
    turns are used up before the loop is left. *)
Fixpoint _extend_to_end `{PairCmpKey} (fuel : nat) (T : TranscriptInterp)
  (ordered_pieces : list nat) (downstream_dir : bool)
  : option (result (list nat)) :=
  match fuel with
  | O => None
  | S fuel' =>
      match _extend_step T ordered_pieces downstream_dir with
      | Raise e => Some (Raise e)
      | Ok (inl final) => Some (Ok final)
      | Ok (inr ordered_pieces') =>
          _extend_to_end fuel' T ordered_pieces' downstream_dir
      end
  end.

(** [set(a) == set(b)] *)
Definition same_set (a b : list nat) : bool :=
  forallb (fun x => contains x b) a && forallb (fun x => contains x a) b.

(** [sort_pieces] with [fuel] turns for each of the two loops. *)
Definition sort_pieces_fuel `{PairCmpKey} (fuel : nat) (T : TranscriptInterp)
  : option (result (list nat)) :=
  let pieces := transcribed_pieces T in
  let ordered_pieces := take 1 pieces in
  match _extend_to_end fuel T ordered_pieces true with
  | None => None
  | Some (Raise e) => Some (Raise e)
  | Some (Ok ordered_pieces) =>
      match _extend_to_end fuel T ordered_pieces false with
      | None => None
      | Some (Raise e) => Some (Raise e)
      | Some (Ok ordered_pieces) =>
          if negb (same_set ordered_pieces pieces) then Some (Raise AssertionError)
          else Some (Ok ordered_pieces)
      end
  end.

(** [sort_pieces]: each loop adds a piece of the transcript that is not yet
    in the list at every turn but its last, so one more turn than there are
    pieces always suffices (see [sort_pieces_terminates]). *)
Definition sort_pieces `{PairCmpKey} (T : TranscriptInterp)
  : option (result (list nat)) :=
  sort_pieces_fuel (S (length (transcribed_pieces T))) T.

(** ** Transcript interpreter *)

(** What a consumer of the generator [transition_5p_to_3p] sees: the triples
    yielded so far and, if the generator stopped on an exception, that
    exception. *)
Definition triple : Set := (list Feature * TranscriptStatus * nat)%type.

Fixpoint transition_groups (status : TranscriptStatus) (piece : nat)
  (groups : list (list Feature)) : list triple * result TranscriptStatus :=
  match groups with
  | [] => ([], Ok status)
  | aligned_features :: rest =>
      match update_status status aligned_features with
      | Raise e => ([], Raise e)
      | Ok status' =>
          let '(out, r) := transition_groups status' piece rest in
          ((aligned_features, status', piece) :: out, r)
      end
  end.

Fixpoint transition_pieces `{PosCmpKey} (T : TranscriptInterp)
  (status : TranscriptStatus) (pieces : list nat) : list triple * option exn :=
  match pieces with
  | [] => ([], None)
  | piece :: rest =>
      match sorted_features (piece_features T piece) with
      | Raise e => ([], Some e)
      | Ok piece_features =>
          match transition_groups status piece (full_stack_matches piece_features) with
          | (out, Raise e) => (out, Some e)
          | (out, Ok status') =>
              let '(out', r) := transition_pieces T status' rest in
              ((out ++ out')%list, r)
          end
      end
  end.

Definition transition_5p_to_3p `{PosCmpKey} `{PairCmpKey} (T : TranscriptInterp)
  : option (list triple * option exn) :=
  match sort_pieces T with
  | None => None
  | Some (Raise e) => Some ([], Some e)
  | Some (Ok pieces) => Some (transition_pieces T initial_status pieces)
  end.

(** ** Handlers and the records they wrap *)

(** Modelled from the spec: the ORM classes of [annotations_orm] (not part
    of the sources at hand) that the handlers name as their [data_type];
    [DownstreamFeature] and [UpstreamFeature] are subtypes of [Feature]. *)
Module annotations_orm.
Inductive cls : Set :=
| AnnotatedGenome
| SequenceInfo
| SuperLocus
| Transcribed
| TranscribedPiece
| Translated
| Feature
| DownstreamFeature
| UpstreamFeature
| UpDownPair.

#[global] Instance cls_eq_dec : EqDecision cls.
Proof. solve_decision. Defined.

(** [isinstance(x, c)] for [x] of class [k]. *)
Definition isinstance (k c : cls) : bool :=
  bool_decide (k = c)
  || (bool_decide (c = Feature)
      && (bool_decide (k = DownstreamFeature) || bool_decide (k = UpstreamFeature))).
End annotations_orm.

Inductive HandlerKind : Set :=
| AnnotatedGenomeHandler
| SequenceInfoHandler
| SuperLocusHandler
| TranscribedHandler
| TranscribedPieceHandler
| TranslatedHandler
| FeatureHandler
| DownstreamFeatureHandler
| UpstreamFeatureHandler
| UpDownPairHandler.

#[global] Instance HandlerKind_eq_dec : EqDecision HandlerKind.
Proof. solve_decision. Defined.

(** [isinstance(other, c)] for a handler [other] of kind [k]: the two
    stream handlers are subclasses of [FeatureHandler]. *)
Definition isinstance (k c : HandlerKind) : bool :=
  bool_decide (k = c)
  || (bool_decide (c = FeatureHandler)
      && (bool_decide (k = DownstreamFeatureHandler)
          || bool_decide (k = UpstreamFeatureHandler))).

(** [any([isinstance(other, x) for x in cs])] *)
Definition isinstance_any (k : HandlerKind) (cs : list HandlerKind) : bool :=
  existsb (isinstance k) cs.

(** The [data_type] property of each concrete handler. *)
Definition data_type (k : HandlerKind) : annotations_orm.cls :=
  match k with
  | AnnotatedGenomeHandler => annotations_orm.AnnotatedGenome
  | SequenceInfoHandler => annotations_orm.SequenceInfo
  | SuperLocusHandler => annotations_orm.SuperLocus
  | TranscribedHandler => annotations_orm.Transcribed
  | TranscribedPieceHandler => annotations_orm.TranscribedPiece
  | TranslatedHandler => annotations_orm.Translated
  | FeatureHandler => annotations_orm.Feature
  | DownstreamFeatureHandler => annotations_orm.DownstreamFeature
  | UpstreamFeatureHandler => annotations_orm.UpstreamFeature
  | UpDownPairHandler => annotations_orm.UpDownPair
  end.

(** The [_valid_links] property of each concrete handler. *)
Definition _valid_links (k : HandlerKind) : list HandlerKind :=
  match k with
  | AnnotatedGenomeHandler => [SequenceInfoHandler]
  | SequenceInfoHandler => [AnnotatedGenomeHandler; SuperLocusHandler]
  | SuperLocusHandler =>
      [SequenceInfoHandler; TranscribedHandler; TranslatedHandler; FeatureHandler]
  | TranscribedHandler =>
      [TranslatedHandler; SuperLocusHandler; TranscribedPieceHandler; UpDownPairHandler]
  | TranscribedPieceHandler => [TranscribedHandler; SuperLocusHandler; FeatureHandler]
  | TranslatedHandler => [TranscribedHandler; SuperLocusHandler; FeatureHandler]
  | FeatureHandler => [TranscribedPieceHandler; SuperLocusHandler; TranslatedHandler]
  | DownstreamFeatureHandler | UpstreamFeatureHandler =>
      [TranscribedPieceHandler; SuperLocusHandler; TranslatedHandler; UpDownPairHandler]
  | UpDownPairHandler =>
      [TranscribedHandler; DownstreamFeatureHandler; UpstreamFeatureHandler]
  end.

(** Attribute values: scalars, a reference to a record, a collection of
    records (possibly holding [None]) and the back reference to a handler. *)
Inductive value : Set :=
| VNone
| VInt (z : Z)
| VStr (s : string)
| VRef (r : nat)
| VList (l : list (option nat))
| VHandler (h : nat).

(** A data record: its class and its attributes by name. *)
Record record : Type := mkRecord {
  r_class : annotations_orm.cls;
  r_attrs : gmap string value
}.

(** A handler object: [self.data], [self.delete_me], and the attributes
    assigned on the handler object itself after construction. *)
Record handler : Type := mkHandler {
  h_kind : HandlerKind;
  h_data : option nat;
  h_delete_me : bool;
  h_attrs : gmap string value
}.

(** The object store: records and handlers by identity.  Every mutation of
    the source is one update of this store; what the ORM does on its own
    when an attribute is assigned (filling the other side of a
    relationship) belongs to the external store and is not part of it. *)
Record world : Type := mkWorld {
  records : nat -> record;
  handlers : nat -> handler
}.

(** [self.data] as a value. *)
Definition ref (d : option nat) : value :=
  match d with
  | Some r => VRef r
  | None => VNone
  end.

(** [target.attr]; [target] is the [data] of a handler, [None] when the
    handler is unbound. *)
Definition getattr (w : world) (target : option nat) (attr : string)
  : result value :=
  match target with
  | None => Raise AttributeError
  | Some r =>
      match r_attrs (records w r) !! attr with
      | Some v => Ok v
      | None => Raise AttributeError
      end
  end.

(** [target.attr = v] *)
Definition setattr (w : world) (target : option nat) (attr : string) (v : value)
  : result world :=
  match target with
  | None => Raise AttributeError
  | Some r =>
      let rec := records w r in
      Ok {| records := <[r := {| r_class := r_class rec;
                                 r_attrs := <[attr := v]> (r_attrs rec) |}]> (records w);
            handlers := handlers w |}
  end.

(** [target.attr.append(x)] *)
Definition list_append (w : world) (target : option nat) (attr : string)
  (x : option nat) : result world :=
  v ← getattr w target attr;
  match v with
  | VList l => setattr w target attr (VList (l ++ [x]))
  | _ => Raise AttributeError
  end.

(** [l.remove(x)]: the first occurrence goes; [None] when there is none. *)
Fixpoint remove_first (x : option nat) (l : list (option nat))
  : option (list (option nat)) :=
  match l with
  | [] => None
  | y :: l' =>
      if bool_decide (y = x) then Some l'
      else match remove_first x l' with
           | Some r => Some (y :: r)
           | None => None
           end
  end.

(** [target.attr.remove(x)] *)
Definition list_remove (w : world) (target : option nat) (attr : string)
  (x : option nat) : result world :=
  v ← getattr w target attr;
  match v with
  | VList l =>
      match remove_first x l with
      | Some l' => setattr w target attr (VList l')
      | None => Raise ValueError
      end
  | _ => Raise AttributeError
  end.

(** [other.attr = v] on the handler object [other] itself. *)
Definition set_handler_attr (w : world) (h : nat) (attr : string) (v : value)
  : world :=
  let hd := handlers w h in
  {| records := records w;
     handlers := <[h := {| h_kind := h_kind hd; h_data := h_data hd;
                           h_delete_me := h_delete_me hd;
                           h_attrs := <[attr := v]> (h_attrs hd) |}]> (handlers w) |}.

(** [Handler.add_data] *)
Definition add_data (self data : nat) (w : world) : result world :=
  let hd := handlers w self in
  if negb (annotations_orm.isinstance (r_class (records w data))
                                      (data_type (h_kind hd)))
  then Raise AssertionError
  else
    let w' := {| records := records w;
                 handlers := <[self := {| h_kind := h_kind hd; h_data := Some data;
                                          h_delete_me := h_delete_me hd;
                                          h_attrs := h_attrs hd |}]> (handlers w) |} in
    setattr w' (Some data) "handler" (VHandler self).

(** [Handler.mark_for_deletion] *)
Definition mark_for_deletion (self : nat) (w : world) : world :=
  let hd := handlers w self in
  {| records := records w;
     handlers := <[self := {| h_kind := h_kind hd; h_data := h_data hd;
                              h_delete_me := true;
                              h_attrs := h_attrs hd |}]> (handlers w) |}.

(** [FeatureHandler.link_to], the body the two stream handlers reach
    through [super().link_to(other)]. *)
Definition FeatureHandler_link_to (self other : nat) (w : world) : result world :=
  let sd := h_data (handlers w self) in
  let od := h_data (handlers w other) in
  let ok := h_kind (handlers w other) in
  if isinstance ok SuperLocusHandler then setattr w sd "super_locus" (ref od)
  else if isinstance_any ok [TranslatedHandler; TranscribedPieceHandler]
  then list_append w od "features" sd
  else Raise ValueError.

(** [link_to] of a stream handler: [slot] is ["downstream"] or ["upstream"].
    The [except ValueError] branch assigns the slot on the handler [other],
    not on [other.data]. *)
Definition stream_link_to (slot : string) (self other : nat) (w : world)
  : result world :=
  match FeatureHandler_link_to self other w with
  | Raise ValueError =>
      if isinstance (h_kind (handlers w other)) UpDownPairHandler
      then Ok (set_handler_attr w other slot (ref (h_data (handlers w self))))
      else Raise ValueError
  | r => r
  end.

(** [self.link_to(other)], dispatched on the kind of [self]. *)
Definition link_to (self other : nat) (w : world) : result world :=
  let sd := h_data (handlers w self) in
  let od := h_data (handlers w other) in
  let ok := h_kind (handlers w other) in
  match h_kind (handlers w self) with
  | AnnotatedGenomeHandler =>
      if isinstance ok SequenceInfoHandler
      then setattr w od "annotated_genome" (ref sd)
      else Raise ValueError
  | SequenceInfoHandler =>
      if isinstance ok AnnotatedGenomeHandler
      then setattr w sd "annotated_genome" (ref od)
      else if isinstance ok SuperLocusHandler
      then setattr w od "sequence_info" (ref sd)
      else Raise ValueError
  | SuperLocusHandler =>
      if isinstance ok SequenceInfoHandler
      then setattr w sd "sequence_info" (ref od)
      else if isinstance_any ok [TranscribedHandler; TranslatedHandler; FeatureHandler]
      then setattr w od "super_locus" (ref sd)
      else Raise ValueError
  | TranscribedHandler =>
      if isinstance ok SuperLocusHandler
      then setattr w sd "super_locus" (ref od)
      else if isinstance_any ok [UpDownPairHandler; TranscribedPieceHandler]
      then setattr w od "transcribed" (ref sd)
      else if isinstance_any ok [TranslatedHandler]
      then list_append w od "transcribeds" sd
      else Raise ValueError
  | TranscribedPieceHandler =>
      if isinstance ok SuperLocusHandler
      then setattr w sd "super_locus" (ref od)
      else if isinstance_any ok [TranscribedHandler; FeatureHandler]
      then list_append w od "transcribed_pieces" sd
      else Raise ValueError
  | TranslatedHandler =>
      if isinstance ok SuperLocusHandler
      then setattr w sd "super_locus" (ref od)
      else if isinstance_any ok [TranscribedHandler; FeatureHandler]
      then list_append w od "translateds" sd
      else Raise ValueError
  | FeatureHandler => FeatureHandler_link_to self other w
  | DownstreamFeatureHandler => stream_link_to "downstream" self other w
  | UpstreamFeatureHandler => stream_link_to "upstream" self other w
  | UpDownPairHandler =>
      if isinstance_any ok (_valid_links UpDownPairHandler)
      then list_append w od "pairs" sd
      else Raise ValueError
  end.

(** [de_link] of a stream handler. *)
Definition stream_de_link (slot : string) (self other : nat) (w : world)
  : result world :=
  let sd := h_data (handlers w self) in
  let od := h_data (handlers w other) in
  let ok := h_kind (handlers w other) in
  if isinstance_any ok [TranscribedPieceHandler; SuperLocusHandler; TranslatedHandler]
  then list_remove w od "features" sd
  else if isinstance ok UpDownPairHandler
  then setattr w od slot VNone
  else Raise ValueError.

(** [self.de_link(other)], dispatched on the kind of [self]. *)
Definition de_link (self other : nat) (w : world) : result world :=
  let sd := h_data (handlers w self) in
  let od := h_data (handlers w other) in
  let ok := h_kind (handlers w other) in
  match h_kind (handlers w self) with
  | AnnotatedGenomeHandler =>
      if isinstance ok SequenceInfoHandler
      then list_remove w sd "sequence_infos" od
      else Raise ValueError
  | SequenceInfoHandler =>
      if isinstance ok AnnotatedGenomeHandler
      then list_remove w od "sequence_infos" sd
      else if isinstance ok SuperLocusHandler
      then list_remove w sd "super_loci" od
      else Raise ValueError
  | SuperLocusHandler =>
      if isinstance ok SequenceInfoHandler
      then list_remove w od "super_loci" sd
      else if isinstance_any ok [TranscribedHandler; TranslatedHandler; FeatureHandler]
      then setattr w od "super_locus" VNone
      else Raise ValueError
  | TranscribedHandler =>
      if isinstance ok UpDownPairHandler
      then setattr w od "transcribed" VNone
      else if isinstance_any ok (_valid_links TranscribedHandler)
      then list_remove w od "transcribeds" sd
      else Raise ValueError
  | TranscribedPieceHandler =>
      if isinstance_any ok (_valid_links TranscribedPieceHandler)
      then list_remove w od "transcribed_pieces" sd
      else Raise ValueError
  | TranslatedHandler =>
      if isinstance_any ok (_valid_links TranslatedHandler)
      then list_remove w od "translateds" sd
      else Raise ValueError
  | FeatureHandler =>
      if isinstance_any ok (_valid_links FeatureHandler)
      then list_remove w od "features" sd
      else Raise ValueError
  | DownstreamFeatureHandler => stream_de_link "downstream" self other w
  | UpstreamFeatureHandler => stream_de_link "upstream" self other w
  | UpDownPairHandler =>
      if isinstance_any ok (_valid_links UpDownPairHandler)
      then list_remove w od "pairs" sd
      else Raise ValueError
  end.

(** ** Copying attributes *)

(** The accepted shapes of [copy_only] and [do_not_copy]: a list (a set, a
    tuple or a generator are turned into one) or a single name. *)
Inductive pyarg : Set :=
| PyList (l : list string)
| PyObj (s : string).

Definition convert2list (obj : pyarg) : list string :=
  match obj with
  | PyList l => l
  | PyObj s => [s]
  end.

(** [s.remove(item)] on a set, held as a list without repetition:
    [KeyError] when the item is not a member. *)
Definition set_remove (item : string) (s : list string) : result (list string) :=
  if bool_decide (item ∈ s)
  then Ok (List.filter (fun x => negb (bool_decide (x = item))) s)
  else Raise KeyError.

(** The [try: to_copy.remove(never_copy) except KeyError: pass] *)
Definition set_discard (item : string) (s : list string) : list string :=
  match set_remove item s with
  | Ok s' => s'
  | Raise _ => s
  end.

Fixpoint remove_each (items : list string) (to_copy : list string)
  : result (list string) :=
  match items with
  | [] => Ok to_copy
  | item :: rest => to_copy' ← set_remove item to_copy; remove_each rest to_copy'
  end.

(** The copying loop; the set is visited in the order of its list. *)
Fixpoint copy_items (self other : nat) (to_copy : list string) (w : world)
  : result world :=
  match to_copy with
  | [] => Ok w
  | item :: rest =>
      val ← getattr w (h_data (handlers w self)) item;
      w' ← setattr w (h_data (handlers w other)) item val;
      copy_items self other rest w'
  end.

(** The names in [type(self.data).__dict__] that do not start with an
    underscore; [class_dict] lists the attributes each ORM class declares
    (the classes are not part of the sources at hand) and the type of [None]
    has only underscored names. *)
Definition public_names (class_dict : annotations_orm.cls -> list string)
  (w : world) (self : nat) : list string :=
  match h_data (handlers w self) with
  | None => []
  | Some r =>
      List.filter (fun x => negb (String.prefix "_" x))
                  (class_dict (r_class (records w r)))
  end.

(** [Handler.copy_data_attr_to_other]; [other] is a handler, so the
    [isinstance(other, Handler)] test passes. *)
Definition copy_data_attr_to_other
  (class_dict : annotations_orm.cls -> list string)
  (self other : nat) (copy_only do_not_copy : option pyarg) (w : world)
  : result world :=
  let to_copy :=
    match copy_only with
    | None => remove_dups (public_names class_dict w self)
    | Some copy_only => remove_dups (convert2list copy_only)
    end in
  to_copy ← match do_not_copy with
            | None => Ok to_copy
            | Some do_not_copy => remove_each (convert2list do_not_copy) to_copy
            end;
  let to_copy := set_discard "handler" (set_discard "id" to_copy) in
  copy_items self other to_copy w.

(** ** Concrete data used in the examples below *)

(** A feature of which only the type and the bearing matter. *)
Definition synthetic_feature (t : FeatureType) (b : Bearing) : Feature :=
  {| f_id := 0; f_class := PlainFeature; f_type := t; f_bearing := b;
     f_coordinates := 0; f_is_plus_strand := true; f_start := 0; f_end := 0;
     f_phase := None; f_transcribed_pieces := [] |}.

(** The sequence [transcription/START, coding/START, coding/END,
    transcription/END], one feature per group. *)
Definition synthetic_groups : list (list Feature) :=
  [[synthetic_feature TRANSCRIBED START]; [synthetic_feature CODING START];
   [synthetic_feature CODING END]; [synthetic_feature TRANSCRIBED END]].

(** A position key for the examples: the start coordinate, compared as an
    integer. *)
Definition start_key : PosCmpKey :=
  {| pos_key := Z; pos_cmp_key := f_start;
     pos_key_ltb := Z.ltb; pos_key_eqb := Z.eqb |}.

(** A plain feature at a coordinate, on a strand, in a region. *)
Definition feature_at (id : nat) (b : Bearing) (region : nat) (plus : bool)
  (pos : Z) : Feature :=
  {| f_id := id; f_class := PlainFeature; f_type := TRANSCRIBED; f_bearing := b;
     f_coordinates := region; f_is_plus_strand := plus; f_start := pos;
     f_end := pos; f_phase := None; f_transcribed_pieces := [] |}.

(** A transcript of one piece (number 7) without features. *)
Definition empty_piece_interp : TranscriptInterp :=
  {| transcribed_pieces := [7%nat]; pairs := []; session_features := [];
     piece_features := fun _ => [] |}.

(** A pair key for the examples: the identity of the pair. *)
Definition pair_id_key : PairCmpKey :=
  {| pair_key := nat; pair_pos_cmp_key := pair_id; pair_key_eqb := Nat.eqb |}.

(** A store with two [Transcribed] records (10 and 11), a
    [TranscribedPiece] record (20), and three handlers: handler 1 is a
    [TranscribedHandler] already bound to record 10, handler 2 a
    [TranscribedHandler] bound to record 11, handler 3 a
    [TranscribedPieceHandler] bound to record 20. *)
Definition transcribed_record (id : Z) (given_id : string) (h : nat) : record :=
  {| r_class := annotations_orm.Transcribed;
     r_attrs := list_to_map
       [("id", VInt id); ("given_id", VStr given_id); ("type", VStr "mRNA");
        ("handler", VHandler h); ("super_locus", VNone);
        ("transcribed_pieces", VList []); ("translateds", VList []);
        ("pairs", VList [])] |}.

Definition piece_record (id : Z) (h : nat) : record :=
  {| r_class := annotations_orm.TranscribedPiece;
     r_attrs := list_to_map
       [("id", VInt id); ("given_id", VStr "piece"); ("handler", VHandler h);
        ("super_locus", VNone); ("transcribed", VNone); ("features", VList [])] |}.

Definition example_world : world :=
  {| records := fun r =>
       if Nat.eqb r 10 then transcribed_record 100 "t.1" 1
       else if Nat.eqb r 11 then transcribed_record 101 "t.2" 2
       else piece_record 200 3;
     handlers := fun h =>
       if Nat.eqb h 1 then mkHandler TranscribedHandler (Some 10%nat) false ∅
       else if Nat.eqb h 2 then mkHandler TranscribedHandler (Some 11%nat) false ∅
       else mkHandler TranscribedPieceHandler (Some 20%nat) false ∅ |}.

(** The names [copy_data_attr_to_other] never copies. *)
Definition never_copy (x : string) : bool :=
  bool_decide (x = "id") || bool_decide (x = "handler").

(** ** Auxiliary notions used to state the properties *)

(** The elements of [rest] that do not match their predecessor ([prev] for
    the first): those that open a new group in [stack_matches]. *)
Fixpoint breaks {A : Type} (match_fn : A -> A -> bool) (prev : A) (rest : list A)
  : list A :=
  match rest with
  | [] => []
  | x :: rest' =>
      if match_fn x prev then breaks match_fn x rest'
      else x :: breaks match_fn x rest'
  end.

(** Every element of [rest] matches its predecessor. *)
Fixpoint all_adjacent_match {A : Type} (match_fn : A -> A -> bool) (prev : A)
  (rest : list A) : bool :=
  match rest with
  | [] => true
  | x :: rest' => match_fn x prev && all_adjacent_match match_fn x rest'
  end.

(** The features of a class that the session holds for a piece. *)
Definition features_of_piece (T : TranscriptInterp) (cls : FeatureClass)
  (piece : nat) : list Feature :=
  List.filter (fun x => contains piece (f_transcribed_pieces x)) (query_all T cls).


(** An upstream or downstream feature belonging to one piece. *)
Definition stream_feature (id : nat) (cls : FeatureClass) (piece : nat) : Feature :=
  {| f_id := id; f_class := cls; f_type := TRANS_INTRON;
     f_bearing := match cls with UpstreamFeature => CLOSE_STATUS | _ => OPEN_STATUS end;
     f_coordinates := 0; f_is_plus_strand := true; f_start := 100; f_end := 100;
     f_phase := None; f_transcribed_pieces := [piece] |}.

(** The scenario as the specification words it: pieces 1 and 2, the
    DownstreamFeature 11 on piece 1, the UpstreamFeature 12 on piece 2, one
    pair (upstream = 12, downstream = 11). *)
Definition spec_F1 : Feature := stream_feature 11 DownstreamFeature 1.

(** The scenario with the roles the code gives them: the UpstreamFeature 11
    on piece 1, the DownstreamFeature 12 on piece 2, one pair
    (upstream = 11, downstream = 12). *)
Definition code_F1 : Feature := stream_feature 11 UpstreamFeature 1.
Definition code_F2 : Feature := stream_feature 12 DownstreamFeature 2.
Definition code_pair : UpDownPair :=
  {| pair_id := 1; upstream := Some code_F1; downstream := Some code_F2 |}.
Definition code_two_pieces : TranscriptInterp :=
  {| transcribed_pieces := [1%nat; 2%nat]; pairs := [code_pair];
     session_features := [code_F1; code_F2];
     piece_features := fun p => if Nat.eqb p 1 then [code_F1] else [code_F2] |}.

(** Two pairs that both name the DownstreamFeature 11 of piece 1; their
    upstream features 12 and 13 sit on pieces 2 and 3. *)
Definition ambiguous_on_downstream : TranscriptInterp :=
  {| transcribed_pieces := [1%nat; 2%nat; 3%nat];
     pairs := [ {| pair_id := 1; upstream := Some (stream_feature 12 UpstreamFeature 2);
                   downstream := Some spec_F1 |};
                {| pair_id := 2; upstream := Some (stream_feature 13 UpstreamFeature 3);
                   downstream := Some spec_F1 |} ];
     session_features := [spec_F1; stream_feature 12 UpstreamFeature 2;
                          stream_feature 13 UpstreamFeature 3];
     piece_features := fun _ => [] |}.

(** Two pairs that both name the UpstreamFeature 11 of piece 1; their
    downstream features 12 and 13 sit on pieces 2 and 3. *)
Definition ambiguous_on_upstream : TranscriptInterp :=
  {| transcribed_pieces := [1%nat; 2%nat; 3%nat];
     pairs := [ {| pair_id := 1; upstream := Some code_F1;
                   downstream := Some (stream_feature 12 DownstreamFeature 2) |};
                {| pair_id := 2; upstream := Some code_F1;
                   downstream := Some (stream_feature 13 DownstreamFeature 3) |} ];
     session_features := [code_F1; stream_feature 12 DownstreamFeature 2;
                          stream_feature 13 DownstreamFeature 3];
     piece_features := fun _ => [] |}.



(** Every element of [g] is related to every element of [g']. *)
Definition all_before {A : Type} (R : A -> A -> Prop) (g g' : list A) : Prop :=
  forall x y, In x g -> In y g' -> R x y.

(** [x] does not come after [y]: equal keys, or a smaller key. *)
Definition key_le {A Key : Type} (key : A -> Key) (lt : Key -> Key -> Prop)
  (x y : A) : Prop :=
  key x = key y \/ lt (key x) (key y).

(** Position order along the strand: on the plus strand the key of [f] is
    not greater than that of [f'], on the minus strand not smaller. *)
Definition strand_before `{PosCmpKey} (plus : bool) (f f' : Feature) : Prop :=
  if plus then pos_key_ltb (pos_cmp_key f') (pos_cmp_key f) = false
  else pos_key_ltb (pos_cmp_key f) (pos_cmp_key f') = false.

(** The order of emission of two features of different groups: position
    along the strand first; at one position, the smaller bearing key
    first. *)
Definition feature_before `{PosCmpKey} (plus : bool) (f f' : Feature) : Prop :=
  strand_before plus f f'
  /\ (pos_cmp_key f = pos_cmp_key f' ->
      bearing_key (f_bearing f) < bearing_key (f_bearing f')).

Definition group_before `{PosCmpKey} (plus : bool) (g g' : list Feature) : Prop :=
  all_before (feature_before plus) g g'.

(** A group of the stacker is not empty and its features share one position
    key and one bearing. *)
Definition uniform_group `{PosCmpKey} (g : list Feature) : Prop :=
  g <> [] /\
  forall f f', In f g -> In f' g ->
    pos_cmp_key f = pos_cmp_key f' /\ f_bearing f = f_bearing f'.

(** A START and an END at the same position of the plus strand. *)
Definition tied_start : Feature := feature_at 1 START 0 true 10.
Definition tied_end : Feature := feature_at 2 END 0 true 10.

(** The strict order of position keys along the strand. *)
Definition strand_lt `{PosCmpKey} (plus : bool) (a b : pos_key) : Prop :=
  if plus then pos_key_ltb a b = true else pos_key_ltb b a = true.

(** The groups of one positional stack: [sort_by_bearing], then
    [stack_matches] by bearing, as in the body of [full_stack_matches]. *)
Definition bearing_groups (matches : list Feature) : list (list Feature) :=
  stack_matches bearing_match (sort_by_bearing matches).

(** ** Further notions used to state properties *)

(** The first component of the entries of [TranscriptStatus._decoder]: the
    attribute of the status a feature type stands for. *)
Definition status_attr (t : FeatureType) (s : TranscriptStatus) : option bool :=
  match t with
  | TRANSCRIBED => Some (genic s)
  | CODING => Some (in_translated_region s)
  | INTRON => Some (in_intron s)
  | TRANS_INTRON => Some (in_trans_intron s)
  | ERROR => Some (erroneous s)
  | OTHER_TYPE => None
  end.

(** The bearings [update_for_feature] takes as opening, and as closing. *)
Definition opens (b : Bearing) : bool :=
  match b with START | OPEN_STATUS => true | _ => false end.

Definition closes (b : Bearing) : bool :=
  match b with END | CLOSE_STATUS => true | _ => false end.

(** A feature the status machine has a transition for. *)
Definition decodable (f : Feature) : Prop :=
  f_type f <> OTHER_TYPE /\ f_bearing f <> POINT.

(** Within a group every element matches the one before it. *)
Definition chained {A : Type} (match_fn : A -> A -> bool) (g : list A) : bool :=
  match g with
  | [] => true
  | x :: rest => all_adjacent_match match_fn x rest
  end.

(** Between two successive groups the match fails: the first element of a
    group does not match the last element of the group before. *)
Fixpoint boundaries {A : Type} (match_fn : A -> A -> bool) (gs : list (list A))
  : Prop :=
  match gs with
  | g1 :: ((g2 :: _) as tl) =>
      (exists x y, latest g1 = Ok x /\ first g2 = Ok y /\ match_fn y x = false)
      /\ boundaries match_fn tl
  | _ => True
  end.

(** The three components of a triple of the stream. *)
Definition triple_group (t : triple) : list Feature := fst (fst t).
Definition triple_status (t : triple) : TranscriptStatus := snd (fst t).
Definition triple_piece (t : triple) : nat := snd t.

(** The groups of a piece, as [transition_5p_to_3p] computes them. *)
Definition piece_groups `{PosCmpKey} (T : TranscriptInterp) (piece : nat)
  : list (list Feature) :=
  match sorted_features (piece_features T piece) with
  | Ok piece_features => full_stack_matches piece_features
  | Raise _ => []
  end.

(** A transcript of one piece holding a START and an END at one position. *)
Definition one_piece_interp : TranscriptInterp :=
  {| transcribed_pieces := [1%nat]; pairs := []; session_features := [];
     piece_features := fun _ => [tied_start; tied_end] |}.

(** The collection of the record of [other] that [self.link_to(other)]
    appends to and [self.de_link(other)] removes from, for the pairs of
    kinds where both use the same one. *)
Definition link_collection (self other : HandlerKind) : option string :=
  match self, other with
  | TranscribedHandler, TranslatedHandler => Some "transcribeds"
  | TranscribedPieceHandler,
    (TranscribedHandler | FeatureHandler | DownstreamFeatureHandler
     | UpstreamFeatureHandler) => Some "transcribed_pieces"
  | TranslatedHandler,
    (TranscribedHandler | FeatureHandler | DownstreamFeatureHandler
     | UpstreamFeatureHandler) => Some "translateds"
  | (FeatureHandler | DownstreamFeatureHandler | UpstreamFeatureHandler),
    (TranslatedHandler | TranscribedPieceHandler) => Some "features"
  | UpDownPairHandler,
    (TranscribedHandler | DownstreamFeatureHandler | UpstreamFeatureHandler) =>
      Some "pairs"
  | _, _ => None
  end.



(** ** numerify: the stepper that cuts a coordinate into chunks *)

Module numerify.

(** A [Stepper]: the position reached, the end and the step width. *)
Record Stepper : Set := mkStepper {
  st_at : Z;
  st_end : Z;
  st_by : Z
}.

(** [Stepper.__init__] *)
Definition Stepper_init (end_ by_ : Z) : Stepper :=
  {| st_at := 0; st_end := end_; st_by := by_ |}.

(** [Stepper.step]: the pair returned and the stepper after the call. *)
Definition step (s : Stepper) : (Z * Z) * Stepper :=
  let prev := st_at s in
  let new := if prev + st_by s <? st_end s then prev + st_by s else st_end s in
  ((prev, new), {| st_at := new; st_end := st_end s; st_by := st_by s |}).

(** [Stepper.step_to_end]: the pairs the generator yields; [fuel] bounds the
    turns of the [while] loop, [None] when they are used up before the
    position reaches the end. *)
Fixpoint step_to_end (fuel : nat) (s : Stepper) : option (list (Z * Z)) :=
  if negb (st_at s <? st_end s) then Some []
  else
    match fuel with
    | O => None
    | S fuel' =>
        let '(yielded, s') := step s in
        match step_to_end fuel' s' with
        | Some rest => Some (yielded :: rest)
        | None => None
        end
    end.

(** The pairs lie end to end from [from] to [to]: each pair starts where the
    one before stopped, is not empty, is [width] long except the last one,
    which may be shorter. *)
Fixpoint tiles (width from : Z) (steps : list (Z * Z)) (to : Z) : Prop :=
  match steps with
  | [] => from = to
  | (prev, new) :: rest =>
      prev = from /\ prev < new /\ new - prev <= width
      /\ (rest <> [] -> new - prev = width)
      /\ tiles width new rest to
  end.

End numerify.

(** ** coverage_counter: the coverage bins *)

Module coverage_counter.

(** [CoverageCounter.setup_coverage_bins]:
    [[0] + [base**i for i in range(n - 1)]], on integers. *)
Definition setup_coverage_bins (base n : Z) : list Z :=
  0 :: map (fun i => base ^ Z.of_nat i) (seq 0 (Z.to_nat (n - 1))).

End coverage_counter.

(** * Properties *)

(** ** The status machine *)

(** The four transitions of the synthetic sequence, each on a group of one
    feature. *)
Lemma update_status_tss (s : TranscriptStatus) (f : Feature) :
  f_type f = TRANSCRIBED -> f_bearing f = START ->
  update_status s [f] = Ok (saw_tss s).
Proof.
  intros Ht Hb. cbn. unfold update_status_one, update_for_feature.
  rewrite Ht, Hb. reflexivity.
Qed.

Lemma update_status_coding_start (s : TranscriptStatus) (f : Feature) :
  f_type f = CODING -> f_bearing f = START ->
  update_status s [f] = Ok (saw_start (Some 0) s).
Proof.
  intros Ht Hb. cbn. unfold update_status_one, update_for_feature.
  rewrite Ht, Hb. reflexivity.
Qed.

Lemma update_status_coding_end (s : TranscriptStatus) (f : Feature) :
  f_type f = CODING -> f_bearing f = END ->
  update_status s [f] = Ok (saw_stop (exit_coding s)).
Proof.
  intros Ht Hb. cbn. unfold update_status_one, update_for_feature.
  rewrite Ht, Hb. reflexivity.
Qed.

Lemma update_status_tts (s : TranscriptStatus) (f : Feature) :
  f_type f = TRANSCRIBED -> f_bearing f = END ->
  update_status s [f] = Ok (saw_tts s).
Proof.
  intros Ht Hb. cbn. unfold update_status_one, update_for_feature.
  rewrite Ht, Hb. reflexivity.
Qed.

(** C3 (as stated, refuted): after the first step of the synthetic sequence
    the status is not "is_5p_utr = false": the replay cannot yield the four
    statuses the claim lists. *)
Lemma status_replay_5p_utr_not_false :
  ~ (exists s1 s2 s3 s4,
        replay initial_status synthetic_groups = Ok [s1; s2; s3; s4]
        /\ is_5p_utr s1 = false /\ is_intergenic s1 = false /\ genic s1 = true
        /\ is_coding s2 = true /\ is_3p_utr s3 = true /\ is_intergenic s4 = true).
Proof.
  intros (s1 & s2 & s3 & s4 & Hrun & H5p & _).
  vm_compute in Hrun. injection Hrun as <- _ _ _.
  vm_compute in H5p. discriminate.
Qed.

(** C3 (amended): starting intergenic and applying transcription/START,
    coding/START, coding/END, transcription/END one at a time, the machine is
    after step 1 genic, not intergenic and in the 5' UTR (is_5p_utr = true);
    after step 2 coding, with phase 0; after step 3 in the 3' UTR; after
    step 4 intergenic. *)
Theorem status_replay_synthetic (f1 f2 f3 f4 : Feature) :
  f_type f1 = TRANSCRIBED -> f_bearing f1 = START ->
  f_type f2 = CODING -> f_bearing f2 = START ->
  f_type f3 = CODING -> f_bearing f3 = END ->
  f_type f4 = TRANSCRIBED -> f_bearing f4 = END ->
  exists s1 s2 s3 s4,
    replay initial_status [[f1]; [f2]; [f3]; [f4]] = Ok [s1; s2; s3; s4]
    /\ (is_5p_utr s1 = true /\ is_intergenic s1 = false /\ genic s1 = true)
    /\ (is_coding s2 = true /\ phase s2 = Some 0)
    /\ is_3p_utr s3 = true
    /\ is_intergenic s4 = true.
Proof.
  intros T1 B1 T2 B2 T3 B3 T4 B4.
  cbn [replay].
  rewrite (update_status_tss _ _ T1 B1). cbn [mbind result_bind].
  rewrite (update_status_coding_start _ _ T2 B2). cbn [mbind result_bind].
  rewrite (update_status_coding_end _ _ T3 B3). cbn [mbind result_bind].
  rewrite (update_status_tts _ _ T4 B4). cbn [mbind result_bind].
  do 4 eexists. split; [reflexivity|].
  repeat split; reflexivity.
Qed.

Lemma status_replay_synthetic_witness :
  exists s1 s2 s3 s4,
    replay initial_status synthetic_groups = Ok [s1; s2; s3; s4]
    /\ (is_5p_utr s1 = true /\ is_intergenic s1 = false /\ genic s1 = true)
    /\ (is_coding s2 = true /\ phase s2 = Some 0)
    /\ is_3p_utr s3 = true
    /\ is_intergenic s4 = true.
Proof.
  apply (status_replay_synthetic
           (synthetic_feature TRANSCRIBED START) (synthetic_feature CODING START)
           (synthetic_feature CODING END) (synthetic_feature TRANSCRIBED END));
    reflexivity.
Defined.

(** ** Sorting the features of a piece *)

Lemma all_equal_first_In {B : Type} (eqb : B -> B -> bool) (attr : Feature -> B)
  (features : list Feature) :
  (forall a b, eqb a b = true -> a = b) ->
  all_equal_first eqb attr features = true ->
  forall f g, In f features -> In g features -> attr f = attr g.
Proof.
  intros Heq Hall f g Hf Hg.
  destruct features as [|f0 rest]; [destruct Hf|].
  unfold all_equal_first in Hall. rewrite forallb_forall in Hall.
  transitivity (attr f0).
  - apply Heq, Hall, Hf.
  - symmetry. apply Heq, Hall, Hg.
Qed.

(** C9: a piece whose features do not all share one strand, or not all one
    coordinates region, makes [sorted_features] fail on its assertion (the
    structural consistency fault) instead of returning a list. *)
Theorem sorted_features_inconsistent `{PosCmpKey} (features : list Feature)
  (f g : Feature) :
  In f features -> In g features ->
  f_is_plus_strand f <> f_is_plus_strand g \/ f_coordinates f <> f_coordinates g ->
  sorted_features features = Raise AssertionError.
Proof.
  intros Hf Hg Hmix. unfold sorted_features.
  destruct (all_equal_first Nat.eqb f_coordinates features) eqn:Hc; [|reflexivity].
  destruct (all_equal_first Bool.eqb f_is_plus_strand features) eqn:Hs; [|reflexivity].
  exfalso. destruct Hmix as [Hmix|Hmix]; apply Hmix.
  - apply (all_equal_first_In Bool.eqb f_is_plus_strand features); auto.
    intros a b Hab. apply Bool.eqb_prop, Hab.
  - apply (all_equal_first_In Nat.eqb f_coordinates features); auto.
    intros a b Hab. apply Nat.eqb_eq, Hab.
Qed.

Lemma sorted_features_inconsistent_witness :
  @sorted_features start_key
     [feature_at 1 START 0 true 10; feature_at 2 END 0 false 20]
  = Raise AssertionError.
Proof.
  apply (@sorted_features_inconsistent start_key _
           (feature_at 1 START 0 true 10) (feature_at 2 END 0 false 20)).
  - simpl. left. reflexivity.
  - simpl. right. left. reflexivity.
  - left. simpl. discriminate.
Defined.

Lemma transition_pieces_app `{PosCmpKey} (T : TranscriptInterp)
  (before after : list nat) (status : TranscriptStatus) :
  (exists out e, transition_pieces T status before = (out, Some e))
  \/ (exists out status', transition_pieces T status before = (out, None)
        /\ forall out' r, transition_pieces T status' after = (out', r) ->
             transition_pieces T status (before ++ after) = ((out ++ out')%list, r)).
Proof.
  revert status. induction before as [|p before IH]; intros status.
  - right. exists [], status. split; [reflexivity|]. intros out' r Hr. exact Hr.
  - cbn [transition_pieces app].
    destruct (sorted_features (piece_features T p)) as [fs|e].
    2:{ left. eauto. }
    destruct (transition_groups status p (full_stack_matches fs)) as [out [st|e]].
    2:{ left. eauto. }
    destruct (IH st) as [(o & e & He)|(o & st' & He & Happ)].
    + left. rewrite He. eauto.
    + right. rewrite He. exists (out ++ o)%list, st'. split; [reflexivity|].
      intros out' r Hr. rewrite (Happ _ _ Hr). rewrite app_assoc. reflexivity.
Qed.

(** C10: on a piece without features [sorted_features] does not return the
    empty list, it fails with an [IndexError] when it reads the strand of
    the first feature; so the interpreter's stream stops on that exception
    at such a piece, and never ends normally for a transcript whose ordered
    pieces include one. *)
Theorem sorted_features_empty_piece `{PosCmpKey} `{PairCmpKey}
  (T : TranscriptInterp) (piece : nat) :
  piece_features T piece = [] ->
  sorted_features (piece_features T piece) = Raise IndexError
  /\ (forall status rest,
        transition_pieces T status (piece :: rest) = ([], Some IndexError))
  /\ (forall status before rest, exists out e,
        transition_pieces T status (before ++ piece :: rest) = (out, Some e))
  /\ (forall pieces, sort_pieces T = Some (Ok pieces) -> In piece pieces ->
        exists out e, transition_5p_to_3p T = Some (out, Some e)).
Proof.
  intros Hempty.
  assert (Hsf : sorted_features (piece_features T piece) = Raise IndexError)
    by (rewrite Hempty; reflexivity).
  assert (Hhd : forall status rest,
             transition_pieces T status (piece :: rest) = ([], Some IndexError)).
  { intros status rest. cbn [transition_pieces]. rewrite Hsf. reflexivity. }
  assert (Hmid : forall status before rest, exists out e,
             transition_pieces T status (before ++ piece :: rest) = (out, Some e)).
  { intros status before rest.
    destruct (transition_pieces_app T before (piece :: rest) status)
      as [(o & e & He)|(o & st' & He & Happ)].
    - clear Hhd. revert status o e He.
      induction before as [|p before IH]; intros status o e He; [discriminate|].
      cbn [transition_pieces app] in *.
      destruct (sorted_features (piece_features T p)) as [fs|e']; [|eauto].
      destruct (transition_groups status p (full_stack_matches fs)) as [out [st|e']];
        [|eauto].
      destruct (transition_pieces T st before) as [o' r] eqn:Hb.
      injection He as <- ->.
      destruct (IH st o' e Hb) as (o2 & e2 & H2). rewrite H2. eauto.
    - rewrite (Happ _ _ (Hhd st' rest)). eauto. }
  repeat split; auto.
  intros pieces Hsort Hin. unfold transition_5p_to_3p. rewrite Hsort.
  apply in_split in Hin. destruct Hin as (before & rest & ->).
  destruct (Hmid initial_status before rest) as (out & e & He).
  rewrite He. eauto.
Qed.

Lemma sorted_features_empty_piece_witness :
  @sorted_features start_key (piece_features empty_piece_interp 7) = Raise IndexError.
Proof.
  refine (proj1 (@sorted_features_empty_piece start_key
                   {| pair_key := nat; pair_pos_cmp_key := pair_id;
                      pair_key_eqb := Nat.eqb |}
                   empty_piece_interp 7%nat _)).
  reflexivity.
Defined.

(** ** Binding a record *)

(** C6 (as stated, refuted): [add_data] on a handler that already holds a
    record does not fail; handler 1, bound to record 10, is rebound to
    record 11. *)
Lemma add_data_rebinds :
  h_data (handlers example_world 1) = Some 10%nat
  /\ exists w', add_data 1 11 example_world = Ok w'
                /\ h_data (handlers w' 1) = Some 11%nat.
Proof.
  split; [reflexivity|]. eexists. split; reflexivity.
Qed.

(** C6 (amended): [add_data] fails, on its assertion, exactly when the
    record is not an instance of the handler's declared data type; it has no
    check for a handler that already holds data: with a record of the right
    type it succeeds whatever the handler held, makes the record the
    handler's data and the handler the record's back reference. *)
Theorem add_data_checks_type_only (self data : nat) (w : world) :
  match add_data self data w with
  | Ok w' =>
      annotations_orm.isinstance (r_class (records w data))
                                 (data_type (h_kind (handlers w self))) = true
      /\ h_data (handlers w' self) = Some data
      /\ r_attrs (records w' data) !! "handler" = Some (VHandler self)
  | Raise e =>
      e = AssertionError
      /\ annotations_orm.isinstance (r_class (records w data))
                                    (data_type (h_kind (handlers w self))) = false
  end.
Proof.
  unfold add_data.
  destruct (annotations_orm.isinstance _ _); cbn.
  - split; [reflexivity|]. split.
    + rewrite fn_lookup_insert. reflexivity.
    + rewrite fn_lookup_insert. cbn. apply lookup_insert_eq.
  - split; reflexivity.
Qed.

(** ** Copying attributes *)

Lemma filter_all_pass {A : Type} (p : A -> bool) (l : list A) :
  (forall x, In x l -> p x = true) -> List.filter p l = l.
Proof.
  induction l as [|x l IH]; intros Hall; [reflexivity|].
  cbn. rewrite (Hall x (or_introl eq_refl)). f_equal.
  apply IH. intros y Hy. apply Hall. right. exact Hy.
Qed.

Lemma filter_filter {A : Type} (p q : A -> bool) (l : list A) :
  List.filter p (List.filter q l) = List.filter (fun x => q x && p x) l.
Proof.
  induction l as [|x l IH]; [reflexivity|].
  cbn. destruct (q x); cbn; [destruct (p x)|]; rewrite ?IH; reflexivity.
Qed.

(** Discarding is filtering, whether or not the name was a member. *)
Lemma set_discard_filter (item : string) (s : list string) :
  set_discard item s = List.filter (fun x => negb (bool_decide (x = item))) s.
Proof.
  unfold set_discard, set_remove.
  destruct (bool_decide (item ∈ s)) eqn:Hmem; [reflexivity|].
  symmetry. apply filter_all_pass. intros x Hx.
  apply negb_true_iff, bool_decide_eq_false. intros ->.
  apply bool_decide_eq_false in Hmem. apply Hmem, list_elem_of_In, Hx.
Qed.

Lemma discard_never_copy (s : list string) :
  set_discard "handler" (set_discard "id" s)
  = List.filter (fun x => negb (never_copy x)) s.
Proof.
  rewrite !set_discard_filter, filter_filter.
  apply filter_ext. intros x. unfold never_copy.
  destruct (bool_decide (x = "id")), (bool_decide (x = "handler")); reflexivity.
Qed.

Lemma remove_dups_filter (p : string -> bool) (l : list string) :
  remove_dups (List.filter p l) = List.filter p (remove_dups l).
Proof.
  induction l as [|x l IH]; [reflexivity|].
  cbn. destruct (p x) eqn:Hp; cbn.
  - destruct (decide_rel elem_of x (List.filter p l)) as [Hin|Hnin];
      destruct (decide_rel elem_of x l) as [Hin'|Hnin']; cbn; rewrite ?Hp, ?IH;
      try reflexivity.
    + exfalso. apply Hnin'. apply list_elem_of_In in Hin.
      apply filter_In in Hin. apply list_elem_of_In, Hin.
    + exfalso. apply Hnin. apply list_elem_of_In, filter_In. split; [|exact Hp].
      apply list_elem_of_In, Hin'.
  - destruct (decide_rel elem_of x l); cbn; rewrite ?Hp, IH; reflexivity.
Qed.

(** The copying loop leaves every attribute it is not asked to copy as it
    was, on every record. *)
Lemma copy_items_other_attr (self other : nat) (to_copy : list string)
  (attr : string) (w w' : world) :
  ~ In attr to_copy ->
  copy_items self other to_copy w = Ok w' ->
  forall r, r_attrs (records w' r) !! attr = r_attrs (records w r) !! attr.
Proof.
  revert w. induction to_copy as [|item rest IH]; intros w Hnin Hrun r.
  - cbn in Hrun. injection Hrun as <-. reflexivity.
  - cbn [copy_items] in Hrun.
    destruct (getattr w (h_data (handlers w self)) item) as [val|e]; [|discriminate].
    cbn [mbind result_bind] in Hrun.
    destruct (setattr w (h_data (handlers w other)) item val) as [w1|e] eqn:Hset;
      [|discriminate].
    cbn [mbind result_bind] in Hrun.
    rewrite (IH w1); [|intros Hin; apply Hnin; right; exact Hin|exact Hrun].
    unfold setattr in Hset. destruct (h_data (handlers w other)) as [o|]; [|discriminate].
    injection Hset as <-. cbn.
    unfold insert at 1, fn_insert. destruct (decide (o = r)) as [->|]; [|reflexivity].
    cbn. apply lookup_insert_ne. intros ->. apply Hnin. left. reflexivity.
Qed.

(** C5 (as stated, refuted): naming [id] in [copy_only] does not make the
    call fail; it returns, having copied [given_id] and left the target's
    [id] alone. *)
Lemma copy_only_id_succeeds :
  exists w', copy_data_attr_to_other (fun _ => []) 1 2
               (Some (PyList ["id"; "given_id"])) None example_world = Ok w'
             /\ r_attrs (records w' 11) !! "given_id" = Some (VStr "t.1")
             /\ r_attrs (records w' 11) !! "id" = Some (VInt 101).
Proof.
  eexists. split; [reflexivity|]. split; reflexivity.
Qed.

(** C5 (amended): a call of [copy_data_attr_to_other] whose [copy_only]
    names [id] or [handler] does not fail on that account: the name is
    silently dropped.  Without an exclude list the call does exactly what the
    call with those names taken out of [copy_only] does; and after any call
    that returns, the [id] and [handler] of every record are what they were
    (the named field is never copied). *)
Theorem copy_only_identity_is_skipped
  (class_dict : annotations_orm.cls -> list string) (self other : nat)
  (names : list string) (w : world) :
  copy_data_attr_to_other class_dict self other (Some (PyList names)) None w
  = copy_data_attr_to_other class_dict self other
      (Some (PyList (List.filter (fun x => negb (never_copy x)) names))) None w
  /\ forall copy_only do_not_copy w',
       copy_data_attr_to_other class_dict self other copy_only do_not_copy w = Ok w' ->
       forall r,
         r_attrs (records w' r) !! "id" = r_attrs (records w r) !! "id"
         /\ r_attrs (records w' r) !! "handler" = r_attrs (records w r) !! "handler".
Proof.
  split.
  - unfold copy_data_attr_to_other. cbn [convert2list mbind result_bind].
    rewrite !discard_never_copy, remove_dups_filter, filter_filter.
    f_equal. apply filter_ext. intros x. destruct (never_copy x); reflexivity.
  - intros copy_only do_not_copy w' Hrun r.
    unfold copy_data_attr_to_other in Hrun.
    destruct (match do_not_copy with
              | Some d => remove_each (convert2list d) _
              | None => Ok _
              end) as [to_copy|e]; [|discriminate].
    cbn [mbind result_bind] in Hrun. rewrite discard_never_copy in Hrun.
    split; (apply (copy_items_other_attr _ _ _ _ _ _) with (2 := Hrun);
            intros Hin; apply filter_In in Hin; destruct Hin as [_ Hin];
            vm_compute in Hin; discriminate).
Qed.

(** ** Linking and de-linking *)

(** The sibling path that does reverse its link: a transcript linked to an
    [UpDownPair] and de-linked again leaves the record of the pair as it
    was. *)
Lemma transcribed_pair_link_de_link (a b ra rb : nat) (w : world) :
  h_kind (handlers w a) = TranscribedHandler ->
  h_kind (handlers w b) = UpDownPairHandler ->
  h_data (handlers w a) = Some ra ->
  h_data (handlers w b) = Some rb ->
  r_attrs (records w rb) !! "transcribed" = Some VNone ->
  exists w1 w2,
    link_to a b w = Ok w1 /\ de_link a b w1 = Ok w2
    /\ r_attrs (records w1 rb) !! "transcribed" = Some (VRef ra)
    /\ records w2 rb = records w rb.
Proof.
  intros Ka Kb Da Db Hnone.
  unfold link_to. rewrite Ka, Kb, Da, Db. cbn.
  eexists. eexists. split; [reflexivity|].
  unfold de_link. cbn. rewrite Ka, Kb, Db. cbn.
  split; [reflexivity|]. rewrite !fn_lookup_insert. cbn.
  split; [apply lookup_insert_eq|].
  rewrite fn_lookup_insert, insert_insert_eq, (insert_id _ _ _ Hnone).
  destruct (records w rb); reflexivity.
Qed.

(** A second slip on a path of the same protocol: linking a stream feature
    to an [UpDownPair] assigns the slot on the handler of the pair, so the
    record of the pair is not touched by the link at all. *)
Lemma stream_link_to_leaves_record (a b : nat) (w : world) :
  h_kind (handlers w a) = UpstreamFeatureHandler ->
  h_kind (handlers w b) = UpDownPairHandler ->
  exists w1,
    link_to a b w = Ok w1
    /\ records w1 = records w
    /\ h_attrs (handlers w1 b) !! "upstream" = Some (ref (h_data (handlers w a))).
Proof.
  intros Ka Kb. unfold link_to, stream_link_to, FeatureHandler_link_to.
  rewrite Ka, Kb. cbn. eexists. split; [reflexivity|]. split; [reflexivity|].
  cbn. rewrite fn_lookup_insert. cbn. apply lookup_insert_eq.
Qed.

(** C4 (the defect): a transcript handler and a piece handler are a valid
    link pair; [link_to] sets the piece's [transcribed] reference, but
    [de_link] takes the branch that removes from a [transcribeds] collection,
    which a piece record does not have: it fails with an [AttributeError] and
    the reference set by the link stays. *)
Theorem transcribed_piece_de_link_fails (a b ra rb : nat) (w : world) :
  h_kind (handlers w a) = TranscribedHandler ->
  h_kind (handlers w b) = TranscribedPieceHandler ->
  h_data (handlers w a) = Some ra ->
  h_data (handlers w b) = Some rb ->
  r_attrs (records w rb) !! "transcribed" = Some VNone ->
  r_attrs (records w rb) !! "transcribeds" = None ->
  isinstance_any TranscribedPieceHandler (_valid_links TranscribedHandler) = true
  /\ exists w1,
       link_to a b w = Ok w1
       /\ r_attrs (records w1 rb) !! "transcribed" = Some (VRef ra)
       /\ de_link a b w1 = Raise AttributeError.
Proof.
  intros Ka Kb Da Db Hnone Hmissing. split; [reflexivity|].
  unfold link_to. rewrite Ka, Kb, Da, Db. cbn.
  eexists. split; [reflexivity|]. cbn [records].
  rewrite fn_lookup_insert. cbn. split; [apply lookup_insert_eq|].
  unfold de_link. cbn. rewrite Ka, Kb, Db. cbn.
  unfold list_remove, getattr. cbn. rewrite fn_lookup_insert. cbn.
  rewrite lookup_insert_ne by discriminate. rewrite Hmissing. reflexivity.
Qed.

Lemma transcribed_piece_de_link_fails_witness :
  exists w1,
    link_to 1 3 example_world = Ok w1
    /\ r_attrs (records w1 20) !! "transcribed" = Some (VRef 10)
    /\ de_link 1 3 w1 = Raise AttributeError.
Proof.
  refine (proj2 (transcribed_piece_de_link_fails 1 3 10 20 example_world
                   _ _ _ _ _ _)); reflexivity.
Defined.

(** ** Resolving the link of a piece *)

Lemma contains_In (x : nat) (l : list nat) : contains x l = true <-> In x l.
Proof.
  unfold contains. rewrite existsb_exists. split.
  - intros (y & Hy & Heq). apply Nat.eqb_eq in Heq. subst. exact Hy.
  - intros Hx. exists x. split; [exact Hx|apply Nat.eqb_refl].
Qed.

(** The first elements of the groups: the first element of the group under
    construction, then every element that opens a new group. *)
Lemma firsts_stack_matches_loop {A : Type} (match_fn : A -> A -> bool)
  (rest : list A) (prev c0 : A) (cs : list A) :
  firsts (stack_matches_loop match_fn prev (c0 :: cs) rest)
  = Ok (c0 :: breaks match_fn prev rest).
Proof.
  revert prev c0 cs. induction rest as [|x rest IH]; intros prev c0 cs.
  - reflexivity.
  - cbn [stack_matches_loop breaks]. destruct (match_fn x prev).
    + change ((c0 :: cs) ++ [x])%list with (c0 :: (cs ++ [x]))%list. apply IH.
    + cbn [firsts first mbind result_bind]. rewrite IH. reflexivity.
Qed.

Lemma breaks_nil {A : Type} (match_fn : A -> A -> bool) (rest : list A) (prev : A) :
  breaks match_fn prev rest = [] <-> all_adjacent_match match_fn prev rest = true.
Proof.
  revert prev. induction rest as [|x rest IH]; intros prev; cbn.
  - tauto.
  - destruct (match_fn x prev); cbn; [apply IH|]. split; discriminate.
Qed.

(** How [_links_list2link] decides, in terms of the list of links alone. *)
Lemma _links_list2link_cases `{PairCmpKey} (links : list UpDownPair) :
  _links_list2link links =
  match links with
  | [] => Ok None
  | l :: rest =>
      if all_adjacent_match link_positional_match l rest then Ok (Some l)
      else Raise IndecipherableLinkageError
  end.
Proof.
  unfold _links_list2link. destruct links as [|l rest]; [reflexivity|].
  cbn [stack_matches]. rewrite firsts_stack_matches_loop. cbn [mbind result_bind].
  destruct (all_adjacent_match link_positional_match l rest) eqn:Hadj.
  - apply breaks_nil in Hadj. rewrite Hadj. reflexivity.
  - destruct (breaks link_positional_match l rest) eqn:Hb; [|reflexivity].
    apply breaks_nil in Hb. congruence.
Qed.

Lemma In_find_matching_links (T : TranscriptInterp) (cands : list Feature)
  (get_upstreams : bool) (x : UpDownPair) :
  In x (_find_matching_links T cands get_upstreams) <->
  In x (pairs T) /\
  exists cand, In cand cands /\
    slot_is (if get_upstreams then downstream x else upstream x) cand = true.
Proof.
  unfold _find_matching_links. rewrite in_flat_map. split.
  - intros (cand & Hc & Hx). destruct get_upstreams; apply filter_In in Hx;
      destruct Hx as [Hx Hs]; eauto.
  - intros (Hx & cand & Hc & Hs). exists cand. split; [exact Hc|].
    destruct get_upstreams; apply filter_In; auto.
Qed.

(** C7 (as stated, refuted): with two pairs that both reference the
    DownstreamFeature of piece 1, [get_downstream_link] of piece 1 does not
    raise: it finds no link at all (the two pairs are what
    [get_upstream_link] sees, and that one raises). *)
Lemma downstream_link_ignores_downstream_feature :
  @get_downstream_link pair_id_key ambiguous_on_downstream 1 = Ok None
  /\ @get_upstream_link pair_id_key ambiguous_on_downstream 1
     = Raise IndecipherableLinkageError.
Proof.
  split; reflexivity.
Qed.

(** C7 (amended): [get_downstream_link] of a piece considers the pairs of the
    transcript whose [upstream] slot is an UpstreamFeature of the piece, in
    the order found.  It returns none when there is no such pair; the first
    of them when each one has the position key of the one before it (runs of
    equal position key count as one link, so also when exactly one matches);
    and raises IndecipherableLinkageError otherwise, in particular when two
    pairs with different position keys both reference the UpstreamFeature of
    the piece. *)
Theorem get_downstream_link_cases `{PairCmpKey} (T : TranscriptInterp)
  (piece : nat) :
  let links :=
    _find_matching_links T (features_of_piece T UpstreamFeature piece) false in
  (forall x, In x links <->
             In x (pairs T) /\
             exists u, In u (session_features T) /\ f_class u = UpstreamFeature
                       /\ In piece (f_transcribed_pieces u)
                       /\ slot_is (upstream x) u = true)
  /\ get_downstream_link T piece =
     match links with
     | [] => Ok None
     | l :: rest =>
         if all_adjacent_match link_positional_match l rest then Ok (Some l)
         else Raise IndecipherableLinkageError
     end
  /\ (forall l1 l2 rest,
        links = l1 :: l2 :: rest ->
        link_positional_match l2 l1 = false ->
        get_downstream_link T piece = Raise IndecipherableLinkageError).
Proof.
  intros links.
  assert (Hcases : get_downstream_link T piece =
            match links with
            | [] => Ok None
            | l :: rest =>
                if all_adjacent_match link_positional_match l rest then Ok (Some l)
                else Raise IndecipherableLinkageError
            end).
  { unfold get_downstream_link. apply _links_list2link_cases. }
  split; [|split; [exact Hcases|]].
  - intros x. unfold links. rewrite In_find_matching_links.
    split; intros (Hx & u & Hu & Hs); (split; [exact Hx|]); exists u.
    + unfold features_of_piece, query_all in Hu.
      apply filter_In in Hu. destruct Hu as [Hu Hp].
      apply filter_In in Hu. destruct Hu as [Hu Hc].
      apply contains_In in Hp.
      destruct (f_class u) eqn:Hcls; try discriminate. auto.
    + destruct Hs as (Hc & Hp & Hs). split; [|exact Hs].
      unfold features_of_piece, query_all. apply filter_In.
      split; [|apply contains_In, Hp]. apply filter_In. split; [exact Hu|].
      rewrite Hc. reflexivity.
  - intros l1 l2 rest Hl Hkey. rewrite Hcases, Hl. cbn. rewrite Hkey. reflexivity.
Qed.

Lemma get_downstream_link_cases_witness :
  @get_downstream_link pair_id_key ambiguous_on_upstream 1
  = Raise IndecipherableLinkageError.
Proof.
  refine (proj2 (proj2 (@get_downstream_link_cases pair_id_key
                          ambiguous_on_upstream 1%nat)) _ _ _ _ _);
    reflexivity.
Defined.

(** ** Ordering the pieces *)


Lemma first_In {A : Type} (l : list A) (x : A) : first l = Ok x -> In x l.
Proof. destruct l; [discriminate|]. intros [= ->]. left. reflexivity. Qed.

(** The piece a stream resolves to is one of the transcript's pieces. *)
Lemma _get_one_piece_from_stream_In (T : TranscriptInterp) (stream : option Feature)
  (q : nat) :
  _get_one_piece_from_stream T stream = Ok q -> In q (transcribed_pieces T).
Proof.
  unfold _get_one_piece_from_stream. destruct stream as [s|]; [|discriminate].
  destruct (negb _); [discriminate|]. intros Hq. apply first_In in Hq.
  apply filter_In in Hq. apply contains_In, Hq.
Qed.

(** What one turn of the loop does, by its three issues. *)
Lemma _extend_step_inv `{PairCmpKey} (T : TranscriptInterp) (ordered : list nat)
  (dir : bool) :
  match _extend_step T ordered dir with
  | Ok (inl final) => final = ordered
  | Ok (inr ordered') =>
      exists q, ~ In q ordered /\ In q (transcribed_pieces T)
                /\ ordered' = _extend_by_one ordered q dir
  | Raise _ => True
  end.
Proof.
  unfold _extend_step.
  destruct (if dir then latest ordered else first ordered) as [cur|e]; [|exact I].
  cbn [mbind result_bind].
  destruct (if dir then get_downstream_link T cur else get_upstream_link T cur)
    as [[link|]|e]; cbn [mbind result_bind]; [|reflexivity|exact I].
  destruct (_get_one_piece_from_stream T _) as [q|e] eqn:Hq; [|exact I].
  cbn [mbind result_bind].
  destruct (contains q ordered) eqn:Hc; [exact I|].
  exists q. split; [|split; [|reflexivity]].
  - intros Hin. apply contains_In in Hin. congruence.
  - eapply _get_one_piece_from_stream_In, Hq.
Qed.

Lemma NoDup_extend_by_one (ordered : list nat) (q : nat) (dir : bool) :
  List.NoDup ordered -> ~ In q ordered -> List.NoDup (_extend_by_one ordered q dir).
Proof.
  intros Hnd Hq. destruct dir; cbn.
  - apply List.NoDup_rev in Hnd. rewrite <- (rev_involutive (ordered ++ [q])).
    apply List.NoDup_rev. rewrite rev_app_distr. cbn. constructor; [|exact Hnd].
    rewrite <- in_rev. exact Hq.
  - constructor; assumption.
Qed.

Lemma In_extend_by_one (ordered : list nat) (q x : nat) (dir : bool) :
  In x (_extend_by_one ordered q dir) <-> x = q \/ In x ordered.
Proof.
  destruct dir; cbn.
  - rewrite in_app_iff. cbn. intuition.
  - intuition.
Qed.

Lemma length_extend_by_one (ordered : list nat) (q : nat) (dir : bool) :
  length (_extend_by_one ordered q dir) = S (length ordered).
Proof.
  destruct dir; cbn; [|reflexivity]. rewrite length_app. cbn. lia.
Qed.

(** The loop of [_extend_to_end] ends: a list without repetition made of
    pieces of the transcript cannot grow beyond their number. *)
Lemma _extend_to_end_total `{PairCmpKey} (T : TranscriptInterp) (dir : bool)
  (fuel : nat) (ordered : list nat) :
  List.NoDup ordered -> incl ordered (transcribed_pieces T) ->
  (length (transcribed_pieces T) < fuel + length ordered)%nat ->
  exists r, _extend_to_end fuel T ordered dir = Some r
            /\ forall final, r = Ok final ->
                 List.NoDup final /\ incl final (transcribed_pieces T)
                 /\ (length ordered <= length final)%nat.
Proof.
  revert ordered. induction fuel as [|fuel IH]; intros ordered Hnd Hincl Hlen.
  - exfalso. apply (List.NoDup_incl_length Hnd) in Hincl. lia.
  - cbn [_extend_to_end]. pose proof (_extend_step_inv T ordered dir) as Hstep.
    destruct (_extend_step T ordered dir) as [[final|ordered']|e].
    + subst final. eexists. split; [reflexivity|]. intros f [= <-]. auto.
    + destruct Hstep as (q & Hq & Hqp & ->).
      destruct (IH (_extend_by_one ordered q dir)) as (r & Hr & Hfinal).
      * apply NoDup_extend_by_one; assumption.
      * intros x Hx. apply In_extend_by_one in Hx. destruct Hx as [->|Hx]; auto.
      * rewrite length_extend_by_one. lia.
      * exists r. split; [exact Hr|]. intros f Hf.
        destruct (Hfinal f Hf) as (H1 & H2 & H3).
        rewrite length_extend_by_one in H3. repeat split; auto. lia.
    + eexists. split; [reflexivity|]. discriminate.
Qed.

(** More turns than needed change nothing. *)
Lemma _extend_to_end_more_fuel `{PairCmpKey} (T : TranscriptInterp) (dir : bool)
  (fuel extra : nat) (ordered : list nat) (r : result (list nat)) :
  _extend_to_end fuel T ordered dir = Some r ->
  _extend_to_end (fuel + extra) T ordered dir = Some r.
Proof.
  revert ordered. induction fuel as [|fuel IH]; intros ordered; [discriminate|].
  cbn [_extend_to_end Nat.add].
  destruct (_extend_step T ordered dir) as [[final|ordered']|e]; auto.
Qed.

Lemma take_1_facts (pieces : list nat) :
  List.NoDup (take 1 pieces) /\ incl (take 1 pieces) pieces
  /\ (pieces = [] \/ length (take 1 pieces) = 1%nat).
Proof.
  destruct pieces as [|p pieces]; cbn.
  - repeat split; [constructor|intros x []|left; reflexivity].
  - repeat split.
    + constructor; [intros []|constructor].
    + intros x [->|[]]. left. reflexivity.
    + right. reflexivity.
Qed.

(** [sort_pieces] always comes to an end, and more turns give the same
    result. *)
Lemma sort_pieces_terminates `{PairCmpKey} (T : TranscriptInterp) :
  exists r, sort_pieces T = Some r
            /\ forall extra,
                 sort_pieces_fuel (S (length (transcribed_pieces T)) + extra) T = Some r.
Proof.
  unfold sort_pieces, sort_pieces_fuel.
  destruct (take_1_facts (transcribed_pieces T)) as (Hnd & Hincl & Hlen).
  set (n := S (length (transcribed_pieces T))).
  assert (Hdown : exists r, _extend_to_end n T (take 1 (transcribed_pieces T)) true = Some r
            /\ forall final, r = Ok final ->
                 List.NoDup final /\ incl final (transcribed_pieces T)
                 /\ (length (take 1 (transcribed_pieces T)) <= length final)%nat).
  { destruct Hlen as [Hnil|Hlen].
    - rewrite Hnil. cbn. eexists. split; [reflexivity|]. discriminate.
    - apply _extend_to_end_total; auto. unfold n. lia. }
  destruct Hdown as (r1 & Hr1 & Hfinal1).
  rewrite Hr1. destruct r1 as [o1|e1].
  2:{ eexists. split; [reflexivity|]. intros extra.
      rewrite (_extend_to_end_more_fuel _ _ _ extra _ _ Hr1). reflexivity. }
  destruct (Hfinal1 o1 eq_refl) as (Hnd1 & Hincl1 & Hlen1).
  assert (Hup : exists r, _extend_to_end n T o1 false = Some r).
  { destruct Hlen as [Hnil|Hlen].
    - destruct o1 as [|x o1]; [cbn; eauto|].
      exfalso. rewrite Hnil in Hincl1. apply (Hincl1 x). left. reflexivity.
    - destruct (_extend_to_end_total T false n o1) as (r & Hr & _); eauto.
      unfold n. lia. }
  destruct Hup as (r2 & Hr2). rewrite Hr2.
  assert (Hmore : forall extra,
            _extend_to_end (n + extra) T (take 1 (transcribed_pieces T)) true
            = Some (Ok o1)
            /\ _extend_to_end (n + extra) T o1 false = Some r2).
  { intros extra. split; apply _extend_to_end_more_fuel; assumption. }
  destruct r2 as [o2|e2]; [destruct (negb (same_set o2 (transcribed_pieces T))) eqn:Hset|];
    (eexists; split; [reflexivity|]; intros extra;
     destruct (Hmore extra) as [-> ->]; rewrite ?Hset; reflexivity).
Qed.






Lemma FeatureClass_eqb_eq (a b : FeatureClass) :
  FeatureClass_eqb a b = true <-> a = b.
Proof. destruct a, b; cbn; split; congruence. Qed.

(** The links found for a piece in either direction. *)
Lemma In_links_of_piece (T : TranscriptInterp) (cls : FeatureClass)
  (get_upstreams : bool) (piece : nat) (x : UpDownPair) :
  In x (_find_matching_links T (features_of_piece T cls piece) get_upstreams) <->
  In x (pairs T) /\
  exists u, In u (session_features T) /\ f_class u = cls
            /\ In piece (f_transcribed_pieces u)
            /\ slot_is (if get_upstreams then downstream x else upstream x) u = true.
Proof.
  rewrite In_find_matching_links. unfold features_of_piece, query_all.
  split; intros (Hx & u & Hu & Hs); (split; [exact Hx|]); exists u.
  - apply filter_In in Hu. destruct Hu as [Hu Hp].
    apply filter_In in Hu. destruct Hu as [Hu Hc].
    apply contains_In in Hp. apply FeatureClass_eqb_eq in Hc. auto.
  - destruct Hs as (Hc & Hp & Hs). split; [|exact Hs].
    apply filter_In. split; [|apply contains_In, Hp].
    apply filter_In. split; [exact Hu|]. apply FeatureClass_eqb_eq, Hc.
Qed.

Lemma _links_list2link_none `{PairCmpKey} (links : list UpDownPair) :
  (forall x, ~ In x links) -> _links_list2link links = Ok None.
Proof.
  intros Hnone. destruct links as [|l rest]; [reflexivity|].
  exfalso. apply (Hnone l). left. reflexivity.
Qed.








(** ** Sorting and stacking *)

Section Sorting.
Context {A : Type} (ltb : A -> A -> bool).
Hypothesis ltb_asym : forall x y, ltb x y = true -> ltb y x = false.
Hypothesis not_ltb_trans :
  forall x y z, ltb y x = false -> ltb z y = false -> ltb z x = false.

Lemma In_insert_sorted (a x : A) (l : list A) :
  In x (insert_sorted ltb a l) <-> x = a \/ In x l.
Proof.
  induction l as [|y l IH]; cbn.
  - intuition.
  - destruct (ltb y a); cbn; [rewrite IH|]; intuition.
Qed.

Lemma In_sorted (x : A) (l : list A) : In x (sorted ltb l) <-> In x l.
Proof.
  induction l as [|y l IH]; cbn; [tauto|].
  rewrite In_insert_sorted, IH. intuition.
Qed.

Lemma insert_sorted_StronglySorted (a : A) (l : list A) :
  StronglySorted (fun x y => ltb y x = false) l ->
  StronglySorted (fun x y => ltb y x = false) (insert_sorted ltb a l).
Proof.
  induction 1 as [|y l Hl IH Hy]; cbn.
  - constructor; constructor.
  - destruct (ltb y a) eqn:Hya.
    + constructor; [exact IH|]. apply Forall_forall. intros z Hz.
      apply In_insert_sorted in Hz. destruct Hz as [->|Hz].
      * apply ltb_asym, Hya.
      * rewrite Forall_forall in Hy. apply Hy, Hz.
    + constructor; [constructor; assumption|].
      constructor; [exact Hya|]. apply Forall_forall. intros z Hz.
      rewrite Forall_forall in Hy. apply (not_ltb_trans a y z Hya (Hy z Hz)).
Qed.

(** The list [sorted] returns is in order. *)
Lemma sorted_StronglySorted (l : list A) :
  StronglySorted (fun x y => ltb y x = false) (sorted ltb l).
Proof.
  induction l as [|a l IH]; cbn; [constructor|].
  apply insert_sorted_StronglySorted, IH.
Qed.
End Sorting.

Lemma StronglySorted_app_In {A : Type} (R : A -> A -> Prop) (l1 l2 : list A) :
  StronglySorted R l1 -> StronglySorted R l2 -> all_before R l1 l2 ->
  StronglySorted R (l1 ++ l2).
Proof.
  intros H1 H2 H12. induction H1 as [|x l1 Hl1 IH Hx]; cbn; [exact H2|].
  constructor.
  - apply IH. intros a b Ha Hb. apply H12; [right|]; assumption.
  - apply Forall_app. split; [exact Hx|].
    apply Forall_forall. intros y Hy. apply H12; [left; reflexivity|exact Hy].
Qed.

Lemma StronglySorted_rev {A : Type} (R : A -> A -> Prop) (l : list A) :
  StronglySorted R l -> StronglySorted (fun x y => R y x) (rev l).
Proof.
  induction 1 as [|x l Hl IH Hx]; cbn; [constructor|].
  apply StronglySorted_app_In; [exact IH|constructor; constructor|].
  intros a b Ha [<-|[]]. apply in_rev in Ha.
  rewrite Forall_forall in Hx. apply Hx, Ha.
Qed.

Lemma StronglySorted_weaken {A : Type} (R1 R2 : A -> A -> Prop) (l : list A) :
  (forall x y, In x l -> In y l -> R1 x y -> R2 x y) ->
  StronglySorted R1 l -> StronglySorted R2 l.
Proof.
  intros Himp H. induction H as [|x l Hl IH Hx]; [constructor|].
  constructor.
  - apply IH. intros a b Ha Hb. apply Himp; right; assumption.
  - rewrite Forall_forall in *. intros y Hy.
    apply Himp; [left; reflexivity|right; exact Hy|apply Hx, Hy].
Qed.

Lemma StronglySorted_map {A B : Type} (R : B -> B -> Prop) (F : A -> B)
  (l : list A) :
  StronglySorted (fun x y => R (F x) (F y)) l -> StronglySorted R (map F l).
Proof.
  induction 1 as [|x l Hl IH Hx]; cbn; [constructor|].
  constructor; [exact IH|]. apply Forall_map. exact Hx.
Qed.

(** Lists that are each in order, and in order among themselves, are in
    order when put end to end. *)
Lemma StronglySorted_concat {A : Type} (R : A -> A -> Prop) (ls : list (list A)) :
  Forall (StronglySorted R) ls -> StronglySorted (all_before R) ls ->
  StronglySorted R (concat ls).
Proof.
  intros Heach Hamong. induction Hamong as [|l ls Hls IH Hl]; cbn; [constructor|].
  inversion Heach as [|? ? Hl1 Hrest]; subst.
  apply StronglySorted_app_In; [exact Hl1|apply IH, Hrest|].
  intros x y Hx Hy. apply in_concat in Hy. destruct Hy as (l' & Hl' & Hy).
  rewrite Forall_forall in Hl. apply (Hl l' Hl' x y Hx Hy).
Qed.

Section Grouping.
Context {A Key : Type} (key : A -> Key) (lt : Key -> Key -> Prop)
        (match_fn : A -> A -> bool).
Hypothesis lt_trans : forall a b c, lt a b -> lt b c -> lt a c.
Hypothesis match_fn_spec : forall x y, match_fn x y = true <-> key x = key y.

(** The loop of [stack_matches] on a list in key order: the group under
    construction ends up as the first group, with the key of [prev]; the
    later groups have one key each, greater than the keys before. *)
Lemma stack_matches_loop_spec (rest : list A) :
  forall prev current,
    StronglySorted (key_le key lt) (prev :: rest) ->
    current <> [] ->
    (forall x, In x current -> key x = key prev) ->
    exists g0 gs,
      stack_matches_loop match_fn prev current rest = g0 :: gs
      /\ concat (g0 :: gs) = (current ++ rest)%list
      /\ g0 <> []
      /\ (forall x, In x g0 -> key x = key prev)
      /\ Forall (fun g => g <> []
                          /\ (forall x y, In x g -> In y g -> key x = key y)
                          /\ (forall y, In y g -> lt (key prev) (key y))) gs
      /\ StronglySorted (all_before (fun x y => lt (key x) (key y))) gs.
Proof.
  induction rest as [|f rest IH]; intros prev current Hsorted Hne Hkeys.
  - exists current, []. cbn. rewrite !app_nil_r.
    repeat split; auto; constructor.
  - apply StronglySorted_inv in Hsorted. destruct Hsorted as [Hsorted Hprev].
    cbn [stack_matches_loop]. destruct (match_fn f prev) eqn:Hm.
    + apply match_fn_spec in Hm.
      destruct (IH f (current ++ [f])%list Hsorted) as
        (g0 & gs & Hloop & Hcat & Hg0 & Hk0 & Hgs & Hss).
      { destruct current; discriminate. }
      { intros x Hx. apply in_app_iff in Hx. destruct Hx as [Hx|[<-|[]]]; auto.
        rewrite Hm. apply Hkeys, Hx. }
      exists g0, gs. rewrite Hloop, Hcat, <- app_assoc. cbn.
      repeat split; auto.
      * intros x Hx. rewrite <- Hm. apply Hk0, Hx.
      * rewrite <- Hm. exact Hgs.
    + assert (Hlt : lt (key prev) (key f)).
      { inversion Hprev as [|? ? Hle _]; subst. destruct Hle as [Heq|Hlt]; auto.
        exfalso. symmetry in Heq. apply match_fn_spec in Heq. congruence. }
      destruct (IH f [f] Hsorted) as
        (g0 & gs & Hloop & Hcat & Hg0 & Hk0 & Hgs & Hss).
      { discriminate. }
      { intros x [<-|[]]. reflexivity. }
      exists current, (g0 :: gs). rewrite Hloop.
      split; [reflexivity|]. split.
      { change (concat (current :: g0 :: gs))
          with (current ++ concat (g0 :: gs))%list.
        rewrite Hcat. reflexivity. }
      split; [exact Hne|]. split; [exact Hkeys|]. split.
      * constructor.
        -- repeat split; auto.
           ++ intros x y Hx Hy. rewrite (Hk0 x Hx), (Hk0 y Hy). reflexivity.
           ++ intros y Hy. rewrite (Hk0 y Hy). exact Hlt.
        -- rewrite Forall_forall in *. intros g Hg.
           destruct (Hgs g Hg) as (H1 & H2 & H3). repeat split; auto.
           intros y Hy. apply (lt_trans _ _ _ Hlt), H3, Hy.
      * constructor; [exact Hss|].
        rewrite Forall_forall in *. intros g Hg x y Hx Hy.
        rewrite (Hk0 x Hx). apply (Hgs g Hg), Hy.
Qed.

(** [stack_matches] on a list in key order cuts it into groups of one key
    each, in strictly increasing order of their keys. *)
Lemma stack_matches_spec (l : list A) :
  StronglySorted (key_le key lt) l ->
  concat (stack_matches match_fn l) = l
  /\ Forall (fun g => g <> []
                      /\ forall x y, In x g -> In y g -> key x = key y)
            (stack_matches match_fn l)
  /\ StronglySorted (all_before (fun x y => lt (key x) (key y)))
                    (stack_matches match_fn l).
Proof.
  intros Hsorted. destruct l as [|prev rest].
  - cbn. repeat split; constructor.
  - cbn [stack_matches].
    destruct (stack_matches_loop_spec rest prev [prev] Hsorted)
      as (g0 & gs & Hloop & Hcat & Hg0 & Hk0 & Hgs & Hss).
    { discriminate. }
    { intros x [<-|[]]. reflexivity. }
    rewrite Hloop. split; [exact Hcat|]. split.
    + constructor.
      * split; [exact Hg0|]. intros x y Hx Hy.
        rewrite (Hk0 x Hx), (Hk0 y Hy). reflexivity.
      * rewrite Forall_forall in *. intros g Hg.
        destruct (Hgs g Hg) as (H1 & H2 & _). auto.
    + constructor; [exact Hss|].
      rewrite Forall_forall in *. intros g Hg x y Hx Hy.
      rewrite (Hk0 x Hx). apply (Hgs g Hg), Hy.
Qed.
End Grouping.

(** ** The order of the groups the stacker emits *)

Section PosKeyFacts.
Context `{K : PosCmpKey} `{!PosCmpKeyLaws K}.

Lemma pos_key_ltb_asym (a b : pos_key) :
  pos_key_ltb a b = true -> pos_key_ltb b a = false.
Proof.
  intros Hab. destruct (pos_key_ltb b a) eqn:Hba; [|reflexivity].
  rewrite <- (pos_key_ltb_irrefl a). symmetry.
  apply (pos_key_ltb_trans a b a); assumption.
Qed.

Lemma pos_key_not_ltb_trans (x y z : pos_key) :
  pos_key_ltb y x = false -> pos_key_ltb z y = false -> pos_key_ltb z x = false.
Proof.
  intros Hyx Hzy. destruct (pos_key_ltb z x) eqn:Hzx; [|reflexivity].
  destruct (pos_key_ltb x y) eqn:Hxy.
  - rewrite <- Hzy. symmetry. apply (pos_key_ltb_trans z x y); assumption.
  - assert (x = y) by (apply pos_key_ltb_total; assumption). subst. congruence.
Qed.

Lemma pos_key_not_ltb_le (a b : pos_key) :
  pos_key_ltb b a = false -> a = b \/ pos_key_ltb a b = true.
Proof.
  intros Hba. destruct (pos_key_ltb a b) eqn:Hab; [right; reflexivity|].
  left. apply pos_key_ltb_total; assumption.
Qed.

Lemma strand_lt_trans (plus : bool) (a b c : pos_key) :
  strand_lt plus a b -> strand_lt plus b c -> strand_lt plus a c.
Proof.
  destruct plus; cbn; intros Hab Hbc.
  - apply (pos_key_ltb_trans a b c); assumption.
  - apply (pos_key_ltb_trans c b a); assumption.
Qed.

Lemma strand_lt_before (plus : bool) (f f' : Feature) :
  strand_lt plus (pos_cmp_key f) (pos_cmp_key f') -> feature_before plus f f'.
Proof.
  intros Hlt. split.
  - destruct plus; cbn in *; apply pos_key_ltb_asym, Hlt.
  - intros Heq. exfalso. rewrite Heq in Hlt.
    destruct plus; cbn in Hlt; rewrite pos_key_ltb_irrefl in Hlt; discriminate.
Qed.

Lemma positional_match_spec (x y : Feature) :
  positional_match x y = true <-> pos_cmp_key x = pos_cmp_key y.
Proof. apply pos_key_eqb_spec. Qed.

(** What [sorted_features] returns: the same features, all of one strand,
    in key order along that strand. *)
Lemma sorted_features_spec (features sfs : list Feature) :
  sorted_features features = Ok sfs ->
  exists plus,
    (forall f, In f features -> f_is_plus_strand f = plus)
    /\ (forall f, In f sfs <-> In f features)
    /\ StronglySorted (key_le pos_cmp_key (strand_lt plus)) sfs.
Proof.
  unfold sorted_features.
  destruct (all_equal_first Nat.eqb f_coordinates features); [|discriminate].
  destruct (all_equal_first Bool.eqb f_is_plus_strand features) eqn:Hstrand;
    [|discriminate].
  cbn [negb].
  set (ltb := fun x y : Feature => pos_key_ltb (pos_cmp_key x) (pos_cmp_key y)).
  assert (Hsorted : StronglySorted (fun x y => ltb y x = false) (sorted ltb features)).
  { apply sorted_StronglySorted; unfold ltb.
    - intros x y. apply pos_key_ltb_asym.
    - intros x y z. apply pos_key_not_ltb_trans. }
  destruct (first (sorted ltb features)) as [f0|e] eqn:Hfirst; [|discriminate].
  cbn [mbind result_bind]. intros Hres.
  assert (Hall : forall f, In f features -> f_is_plus_strand f = f_is_plus_strand f0).
  { intros f Hf.
    apply (all_equal_first_In Bool.eqb f_is_plus_strand features); auto.
    - intros a b. apply Bool.eqb_prop.
    - apply (In_sorted ltb), first_In, Hfirst. }
  exists (f_is_plus_strand f0). split; [exact Hall|].
  destruct (f_is_plus_strand f0); cbn [negb] in Hres; injection Hres as <-.
  - split; [intros f; apply In_sorted|].
    eapply StronglySorted_weaken; [|exact Hsorted].
    intros x y _ _ Hxy. unfold ltb in Hxy. unfold key_le. cbn.
    apply pos_key_not_ltb_le, Hxy.
  - split.
    + intros f. rewrite <- in_rev. apply In_sorted.
    + eapply StronglySorted_weaken; [|apply StronglySorted_rev, Hsorted].
      intros x y _ _ Hxy. unfold ltb in Hxy. unfold key_le. cbn.
      destruct (pos_key_not_ltb_le _ _ Hxy) as [->|Hlt]; auto.
Qed.
End PosKeyFacts.

Lemma Bearing_eqb_key (a b : Bearing) :
  Bearing_eqb a b = true <-> bearing_key a = bearing_key b.
Proof. destruct a, b; cbn; split; intros; congruence. Qed.

Lemma bearing_key_inj (a b : Bearing) : bearing_key a = bearing_key b -> a = b.
Proof. destruct a, b; cbn; intros; congruence. Qed.

(** The groups of one positional stack: they hold the features of the
    stack, one bearing each, in increasing order of the bearing key. *)
Lemma bearing_groups_spec (matches : list Feature) :
  (forall g f, In g (bearing_groups matches) -> In f g -> In f matches)
  /\ Forall (fun g => g <> []
                      /\ forall x y, In x g -> In y g -> f_bearing x = f_bearing y)
            (bearing_groups matches)
  /\ StronglySorted
       (all_before (fun x y => bearing_key (f_bearing x) < bearing_key (f_bearing y)))
       (bearing_groups matches).
Proof.
  set (ltb := fun x y : Feature =>
                bearing_key (f_bearing x) <? bearing_key (f_bearing y)).
  assert (Hsorted : StronglySorted
            (key_le (fun f => bearing_key (f_bearing f)) Z.lt)
            (sort_by_bearing matches)).
  { eapply StronglySorted_weaken;
      [|apply (sorted_StronglySorted ltb); unfold ltb; intros; lia].
    intros x y _ _ Hxy. unfold key_le. unfold ltb in Hxy. lia. }
  destruct (stack_matches_spec (fun f => bearing_key (f_bearing f)) Z.lt
              bearing_match Z.lt_trans
              (fun x y => Bearing_eqb_key (f_bearing x) (f_bearing y))
              _ Hsorted) as (Hcat & Hgroups & Hss).
  fold (bearing_groups matches) in Hcat, Hgroups, Hss.
  split; [|split; [|exact Hss]].
  - intros g f Hg Hf. apply (In_sorted ltb). fold (sort_by_bearing matches).
    unfold sort_by_bearing. fold ltb. 
    change (sorted ltb matches) with (sort_by_bearing matches).
    rewrite <- Hcat. apply in_concat. eauto.
  - rewrite Forall_forall in *. intros g Hg. destruct (Hgroups g Hg) as [Hne Heq].
    split; [exact Hne|]. intros x y Hx Hy. apply bearing_key_inj, Heq; assumption.
Qed.

Lemma start_key_laws : PosCmpKeyLaws start_key.
Proof.
  constructor; cbn.
  - intros a b. apply Z.eqb_eq.
  - intros a. apply Z.ltb_irrefl.
  - intros a b c. rewrite !Z.ltb_lt. lia.
  - intros a b. rewrite !Z.ltb_ge. lia.
Qed.

(** C2 (as stated, refuted): a START and an END at one position are not
    emitted START first: the group of the END comes before the group of the
    START. *)
Lemma tied_end_is_emitted_before_start :
  @sorted_features start_key [tied_start; tied_end] = Ok [tied_start; tied_end]
  /\ @full_stack_matches start_key [tied_start; tied_end]
     = [[tied_end]; [tied_start]].
Proof.
  split; reflexivity.
Qed.

(** C2 (amended): for a piece with valid features, the groups emitted by
    [full_stack_matches] over [sorted_features] are each of one position key
    and one bearing, their position keys are non-decreasing along the strand
    (ascending on the plus strand, descending on the minus strand), and among
    groups sharing one position key the groups appear in increasing order of
    the sort key END (0), CLOSE_STATUS (1), OPEN_STATUS (2), START (3),
    POINT (4): closing bearings are processed before opening ones. *)
Theorem stacker_emission_order `{K : PosCmpKey} `{!PosCmpKeyLaws K}
  (features sfs : list Feature) :
  sorted_features features = Ok sfs ->
  exists plus,
    (forall f, In f features -> f_is_plus_strand f = plus)
    /\ Forall uniform_group (full_stack_matches sfs)
    /\ StronglySorted (group_before plus) (full_stack_matches sfs).
Proof.
  intros Hsf.
  destruct (sorted_features_spec features sfs Hsf) as (plus & Hplus & _ & Hsorted).
  exists plus. split; [exact Hplus|].
  destruct (stack_matches_spec pos_cmp_key (strand_lt plus) positional_match
              (strand_lt_trans plus) positional_match_spec sfs Hsorted)
    as (_ & Hpgs & Hpss).
  unfold full_stack_matches.
  change (fun matches => stack_matches bearing_match (sort_by_bearing matches))
    with bearing_groups.
  set (pgs := stack_matches positional_match sfs) in *.
  rewrite Forall_forall in Hpgs.
  split.
  - apply Forall_forall. intros g Hg.
    apply in_concat in Hg. destruct Hg as (bgs & Hbgs & Hg).
    apply in_map_iff in Hbgs. destruct Hbgs as (pg & <- & Hpg).
    destruct (bearing_groups_spec pg) as (Hin & Hgroups & _).
    rewrite Forall_forall in Hgroups. destruct (Hgroups g Hg) as [Hne Hb].
    split; [exact Hne|]. intros f f' Hf Hf'. split; [|apply Hb; assumption].
    apply (Hpgs pg Hpg); [apply (Hin g f Hg Hf)|apply (Hin g f' Hg Hf')].
  - apply StronglySorted_concat.
    + apply Forall_forall. intros bgs Hbgs.
      apply in_map_iff in Hbgs. destruct Hbgs as (pg & <- & Hpg).
      destruct (bearing_groups_spec pg) as (Hin & _ & Hbss).
      eapply StronglySorted_weaken; [|exact Hbss].
      intros g g' Hg Hg' Hlt f f' Hf Hf'.
      assert (Hkey : pos_cmp_key f = pos_cmp_key f')
        by (apply (Hpgs pg Hpg);
            [apply (Hin g f Hg Hf)|apply (Hin g' f' Hg' Hf')]).
      split; [|intros _; apply Hlt; assumption].
      unfold strand_before. rewrite Hkey.
      destruct plus; apply pos_key_ltb_irrefl.
    + apply StronglySorted_map.
      eapply StronglySorted_weaken; [|exact Hpss].
      intros pg pg' Hpg Hpg' Hlt g g' Hg Hg' f f' Hf Hf'.
      apply strand_lt_before. apply Hlt.
      * apply (proj1 (bearing_groups_spec pg) g f Hg Hf).
      * apply (proj1 (bearing_groups_spec pg') g' f' Hg' Hf').
Qed.

Lemma stacker_emission_order_witness :
  exists plus,
    (forall f, In f [tied_start; tied_end] -> f_is_plus_strand f = plus)
    /\ Forall (@uniform_group start_key)
              (@full_stack_matches start_key [tied_start; tied_end])
    /\ StronglySorted (@group_before start_key plus)
                      (@full_stack_matches start_key [tied_start; tied_end]).
Proof.
  apply (@stacker_emission_order start_key start_key_laws
           [tied_start; tied_end] [tied_start; tied_end]).
  reflexivity.
Defined.

(** * Further properties *)

(** ** The status machine, feature by feature *)

Lemma update_status_one_cases (s : TranscriptStatus) (f : Feature) :
  match update_status_one s f with
  | Ok _ => decodable f
  | Raise e =>
      (f_type f = OTHER_TYPE /\ e = KeyError)
      \/ (f_type f <> OTHER_TYPE /\ f_bearing f = POINT /\ e = ValueError)
  end.
Proof.
  unfold update_status_one, update_for_feature, decodable.
  destruct (f_type f), (f_bearing f); cbn;
    try (split; discriminate);
    try (left; split; reflexivity);
    right; (split; [discriminate|split; reflexivity]).
Qed.

(** X1: [update_status] fails only on a feature the machine has no
    transition for, at the first such feature of the group: with a
    [KeyError] when its type has no decoder entry, with a [ValueError] when
    its bearing is POINT; the keyword arguments it passes never cause a
    [TypeError]. *)
Theorem update_status_failure (s : TranscriptStatus) (fs : list Feature) :
  match update_status s fs with
  | Ok _ => Forall decodable fs
  | Raise e =>
      exists before f after,
        fs = (before ++ f :: after)%list /\ Forall decodable before
        /\ ((f_type f = OTHER_TYPE /\ e = KeyError)
            \/ (f_type f <> OTHER_TYPE /\ f_bearing f = POINT /\ e = ValueError))
  end.
Proof.
  revert s. induction fs as [|f fs IH]; intros s; cbn [update_status].
  - constructor.
  - pose proof (update_status_one_cases s f) as Hone.
    destruct (update_status_one s f) as [s1|e]; cbn [mbind result_bind].
    + specialize (IH s1). destruct (update_status s1 fs) as [s2|e].
      * constructor; assumption.
      * destruct IH as (before & g & after & -> & Hb & Hg).
        exists (f :: before), g, after. repeat split; auto.
    + exists [], f, fs. repeat split; auto.
Qed.

(** X2: every status is in exactly one of the four classes intergenic, UTR,
    coding, intronic (cis or trans); the 5' and the 3' UTR exclude each
    other and are both UTR. *)
Theorem status_classes_partition (s : TranscriptStatus) :
  (Nat.b2n (is_intergenic s) + Nat.b2n (is_utr s) + Nat.b2n (is_coding s)
   + Nat.b2n (is_intronic s || is_trans_intronic s) = 1)%nat
  /\ is_5p_utr s && is_3p_utr s = false
  /\ (is_5p_utr s || is_3p_utr s = true -> is_utr s = true).
Proof.
  destruct s as [g i ti tr ss st er ph].
  unfold is_intergenic, is_utr, is_coding, is_intronic, is_trans_intronic,
    is_5p_utr, is_3p_utr; cbn.
  destruct g, i, ti, tr, ss, st; cbn; repeat split; auto; discriminate.
Qed.

Lemma update_status_one_attr (s s' : TranscriptStatus) (f : Feature) :
  update_status_one s f = Ok s' ->
  status_attr (f_type f) s' = Some (opens (f_bearing f))
  /\ (forall t, t <> f_type f -> status_attr t s' = status_attr t s)
  /\ (seen_start s = true -> seen_start s' = true)
  /\ (seen_stop s = true -> seen_stop s' = true).
Proof.
  unfold update_status_one, update_for_feature.
  destruct (f_type f), (f_bearing f); cbn; try discriminate;
    intros [= <-]; cbn; (split; [reflexivity|split; [|split; auto]]);
    intros t Ht; destruct t; try reflexivity; congruence.
Qed.

(** X3: each feature drives the attribute of its own type and no other: after
    a feature is applied, the attribute its type stands for is true if the
    bearing opens (START, OPEN_STATUS) and false if it closes (END,
    CLOSE_STATUS), and the attributes of the other types are as before. *)
Theorem update_status_sets_own_attr (s s' : TranscriptStatus) (f : Feature) :
  update_status s [f] = Ok s' ->
  status_attr (f_type f) s' = Some (opens (f_bearing f))
  /\ closes (f_bearing f) = negb (opens (f_bearing f))
  /\ forall t, t <> f_type f -> status_attr t s' = status_attr t s.
Proof.
  cbn [update_status]. pose proof (update_status_one_cases s f) as Hdec.
  destruct (update_status_one s f) as [s1|e] eqn:Hone; [|discriminate].
  cbn [mbind result_bind]. intros [= <-].
  destruct (update_status_one_attr _ _ _ Hone) as (Hown & Hothers & _).
  split; [exact Hown|]. split; [|exact Hothers].
  destruct Hdec as [_ Hb]. destruct (f_bearing f); try reflexivity. congruence.
Qed.

Lemma update_status_sets_own_attr_witness :
  exists s',
    update_status initial_status [synthetic_feature INTRON OPEN_STATUS] = Ok s'
    /\ status_attr INTRON s' = Some true
    /\ status_attr TRANSCRIBED s' = status_attr TRANSCRIBED initial_status.
Proof.
  eexists. split; [reflexivity|].
  destruct (update_status_sets_own_attr initial_status _
              (synthetic_feature INTRON OPEN_STATUS) eq_refl) as (H1 & _ & H2).
  split; [exact H1|]. apply H2. discriminate.
Defined.

(** X4: the marks of the start and of the stop codon are never taken back: a
    status that has seen the start (the stop) still has after any group, so
    the 5' UTR is never entered again once the start was seen. *)
Theorem seen_marks_persist (s s' : TranscriptStatus) (fs : list Feature) :
  update_status s fs = Ok s' ->
  (seen_start s = true -> seen_start s' = true /\ is_5p_utr s' = false)
  /\ (seen_stop s = true -> seen_stop s' = true /\ is_5p_utr s' = false).
Proof.
  revert s. induction fs as [|f fs IH]; intros s; cbn [update_status].
  - intros [= <-]. unfold is_5p_utr.
    split; intros ->; (split; [reflexivity|]);
      rewrite ?orb_true_r; cbn; apply andb_false_r.
  - destruct (update_status_one s f) as [s1|e] eqn:Hone; [|discriminate].
    cbn [mbind result_bind]. intros Hrest.
    destruct (update_status_one_attr _ _ _ Hone) as (_ & _ & Hss & Hst).
    destruct (IH s1 Hrest) as [IH1 IH2]. split; auto.
Qed.

Lemma seen_marks_persist_witness :
  exists s',
    update_status (saw_start (Some 0) (saw_tss initial_status))
                  [synthetic_feature CODING CLOSE_STATUS] = Ok s'
    /\ seen_start s' = true /\ is_5p_utr s' = false.
Proof.
  eexists. split; [reflexivity|].
  apply (seen_marks_persist (saw_start (Some 0) (saw_tss initial_status)) _
           [synthetic_feature CODING CLOSE_STATUS] eq_refl).
  reflexivity.
Defined.

(** X5: a span of transcription, intron, trans-intron or error that opens and
    closes again on a status where its attribute was off leaves the status
    exactly as it was. *)
Theorem open_close_round_trip (s : TranscriptStatus) (fo fc : Feature) :
  f_type fo = f_type fc ->
  f_type fo <> CODING ->
  opens (f_bearing fo) = true ->
  closes (f_bearing fc) = true ->
  status_attr (f_type fo) s = Some false ->
  update_status s [fo; fc] = Ok s.
Proof.
  intros Ht Hnc Ho Hc Hoff. cbn [update_status].
  unfold update_status_one, update_for_feature. rewrite <- Ht.
  destruct s as [g i ti tr ss st er ph].
  destruct (f_type fo), (f_bearing fo), (f_bearing fc); cbn in *;
    try discriminate; try congruence;
    injection Hoff as ->; reflexivity.
Qed.

Lemma open_close_round_trip_witness :
  update_status (saw_tss initial_status)
    [synthetic_feature INTRON OPEN_STATUS; synthetic_feature INTRON CLOSE_STATUS]
  = Ok (saw_tss initial_status).
Proof.
  apply open_close_round_trip; try reflexivity. discriminate.
Defined.

(** ** Stacking, whatever the order of the input *)

Lemma latest_snoc {A : Type} (l : list A) (x : A) : latest (l ++ [x]) = Ok x.
Proof.
  induction l as [|y l IH]; [reflexivity|].
  cbn [app latest]. destruct (l ++ [x])%list eqn:Hl; [|exact IH].
  destruct l; discriminate.
Qed.

Lemma all_adjacent_match_snoc {A : Type} (match_fn : A -> A -> bool)
  (l : list A) (p x f : A) :
  all_adjacent_match match_fn p l = true ->
  latest (p :: l) = Ok x -> match_fn f x = true ->
  all_adjacent_match match_fn p (l ++ [f]) = true.
Proof.
  revert p. induction l as [|y l IH]; intros p Hadj Hlast Hm.
  - cbn in *. injection Hlast as ->. rewrite Hm. reflexivity.
  - cbn [app all_adjacent_match] in *. apply andb_true_iff in Hadj.
    destruct Hadj as [Hy Hadj]. rewrite Hy. cbn. apply IH; auto.
Qed.

Lemma stack_matches_loop_shape {A : Type} (match_fn : A -> A -> bool)
  (rest : list A) :
  forall prev current,
    latest current = Ok prev -> chained match_fn current = true ->
    (exists ext gs,
       stack_matches_loop match_fn prev current rest = (current ++ ext)%list :: gs)
    /\ concat (stack_matches_loop match_fn prev current rest)
       = (current ++ rest)%list
    /\ Forall (fun g => g <> [] /\ chained match_fn g = true)
              (stack_matches_loop match_fn prev current rest)
    /\ boundaries match_fn (stack_matches_loop match_fn prev current rest).
Proof.
  induction rest as [|f rest IH]; intros prev current Hlast Hch.
  - cbn. split; [exists [], []; rewrite app_nil_r; reflexivity|].
    rewrite !app_nil_r. split; [reflexivity|]. split; [|exact I].
    constructor; [|constructor]. split; [|exact Hch].
    intros ->. discriminate.
  - cbn [stack_matches_loop]. destruct (match_fn f prev) eqn:Hm.
    + destruct (IH f (current ++ [f])%list) as ((ext & gs & Hshape) & Hcat & Hall & Hb).
      { apply latest_snoc. }
      { destruct current as [|c0 cs]; [discriminate|].
        cbn. apply (all_adjacent_match_snoc _ _ _ prev); auto. }
      split; [exists (f :: ext), gs; rewrite Hshape, <- app_assoc; reflexivity|].
      rewrite Hcat, <- app_assoc. auto.
    + destruct (IH f [f]) as ((ext & gs & Hshape) & Hcat & Hall & Hb);
        [reflexivity|reflexivity|].
      split; [exists [], (stack_matches_loop match_fn f [f] rest);
              rewrite app_nil_r; reflexivity|].
      split; [cbn [concat]; rewrite Hcat; reflexivity|].
      split.
      * constructor; [|exact Hall]. split; [|exact Hch].
        intros ->. discriminate.
      * rewrite Hshape in *. cbn [boundaries]. split; [|exact Hb].
        exists prev, f. auto.
Qed.

(** X6: [stack_matches] cuts any list into its maximal runs: the groups put
    end to end give the list back, no group is empty, inside a group every
    element matches its predecessor, and the first element of a group does
    not match the last of the group before. *)
Theorem stack_matches_runs {A : Type} (match_fn : A -> A -> bool) (l : list A) :
  concat (stack_matches match_fn l) = l
  /\ Forall (fun g => g <> [] /\ chained match_fn g = true)
            (stack_matches match_fn l)
  /\ boundaries match_fn (stack_matches match_fn l).
Proof.
  destruct l as [|prev rest].
  - cbn. repeat split; constructor.
  - cbn [stack_matches].
    destruct (stack_matches_loop_shape match_fn rest prev [prev] eq_refl eq_refl)
      as (_ & Hcat & Hall & Hb).
    auto.
Qed.

Lemma insert_sorted_Permutation {A : Type} (ltb : A -> A -> bool) (a : A)
  (l : list A) :
  Permutation (insert_sorted ltb a l) (a :: l).
Proof.
  induction l as [|y l IH]; cbn; [reflexivity|].
  destruct (ltb y a); [|reflexivity].
  rewrite IH. apply perm_swap.
Qed.

Lemma sorted_Permutation {A : Type} (ltb : A -> A -> bool) (l : list A) :
  Permutation (sorted ltb l) l.
Proof.
  induction l as [|a l IH]; cbn; [reflexivity|].
  rewrite insert_sorted_Permutation, IH. reflexivity.
Qed.

Lemma concat_stack_matches {A : Type} (match_fn : A -> A -> bool) (l : list A) :
  concat (stack_matches match_fn l) = l.
Proof.
  destruct l as [|prev rest]; [reflexivity|]. cbn [stack_matches].
  apply (stack_matches_loop_shape match_fn rest prev [prev] eq_refl eq_refl).
Qed.

Lemma stack_matches_nonempty {A : Type} (match_fn : A -> A -> bool) (l : list A)
  (g : list A) :
  In g (stack_matches match_fn l) -> g <> [].
Proof.
  destruct l as [|prev rest]; [intros []|]. cbn [stack_matches]. intros Hg.
  destruct (stack_matches_loop_shape match_fn rest prev [prev] eq_refl eq_refl)
    as (_ & _ & Hall & _).
  rewrite Forall_forall in Hall. apply (Hall g Hg).
Qed.

Lemma full_stack_matches_Permutation `{PosCmpKey} (features : list Feature) :
  Permutation (concat (full_stack_matches features)) features.
Proof.
  unfold full_stack_matches.
  rewrite <- (concat_stack_matches positional_match features) at 2.
  induction (stack_matches positional_match features) as [|pg pgs IH];
    [reflexivity|].
  cbn [map concat]. rewrite concat_app, IH.
  apply Permutation_app_tail.
  rewrite concat_stack_matches. apply sorted_Permutation.
Qed.

(** X7: the groups [full_stack_matches] emits hold every feature of its input
    exactly once: put end to end they are a rearrangement of the input, and
    no group is empty. *)
Theorem full_stack_matches_partition `{PosCmpKey} (features : list Feature) :
  Permutation (concat (full_stack_matches features)) features
  /\ Forall (fun g => g <> []) (full_stack_matches features).
Proof.
  split; [apply full_stack_matches_Permutation|].
  unfold full_stack_matches.
  apply Forall_forall. intros g Hg.
  apply in_concat in Hg. destruct Hg as (bgs & Hbgs & Hg).
  apply in_map_iff in Hbgs. destruct Hbgs as (pg & <- & _).
  apply (stack_matches_nonempty bearing_match (sort_by_bearing pg) g Hg).
Qed.

(** X8: on a piece that has features, all of one region and one strand,
    [sorted_features] succeeds and returns the features of the piece, each
    once: sorted by position key on the plus strand, and that list reversed
    on the minus strand. *)
Theorem sorted_features_valid `{PosCmpKey} (features : list Feature)
  (f0 : Feature) :
  In f0 features ->
  (forall f, In f features ->
     f_coordinates f = f_coordinates f0
     /\ f_is_plus_strand f = f_is_plus_strand f0) ->
  exists sfs,
    sorted_features features = Ok sfs
    /\ Permutation sfs features
    /\ sfs = (if f_is_plus_strand f0 then id else @rev Feature)
               (sorted (fun x y => pos_key_ltb (pos_cmp_key x) (pos_cmp_key y))
                       features).
Proof.
  intros Hin Hsame. unfold sorted_features.
  assert (Hc : all_equal_first Nat.eqb f_coordinates features = true).
  { destruct features as [|g rest]; [reflexivity|]. cbn [all_equal_first].
    apply forallb_forall. intros f Hf. apply Nat.eqb_eq.
    rewrite (proj1 (Hsame f Hf)), (proj1 (Hsame g (or_introl eq_refl))).
    reflexivity. }
  assert (Hs : all_equal_first Bool.eqb f_is_plus_strand features = true).
  { destruct features as [|g rest]; [reflexivity|]. cbn [all_equal_first].
    apply forallb_forall. intros f Hf.
    rewrite (proj2 (Hsame f Hf)), (proj2 (Hsame g (or_introl eq_refl))).
    apply Bool.eqb_reflx. }
  rewrite Hc, Hs. cbn [negb].
  set (s := sorted _ features).
  assert (Hperm : Permutation s features) by apply sorted_Permutation.
  destruct s as [|g s'] eqn:Hsv.
  { exfalso. apply Permutation_nil in Hperm.
    subst. destruct Hin. }
  cbn [first mbind result_bind].
  assert (Hg : f_is_plus_strand g = f_is_plus_strand f0).
  { apply Hsame. apply (Permutation_in g Hperm). left. reflexivity. }
  rewrite Hg. destruct (f_is_plus_strand f0); cbn [negb].
  - eexists. split; [reflexivity|]. split; [exact Hperm|reflexivity].
  - eexists. split; [reflexivity|]. split; [|reflexivity].
    rewrite <- Hperm. symmetry. apply Permutation_rev.
Qed.

Lemma sorted_features_valid_witness :
  @sorted_features start_key
     [feature_at 1 START 0 false 10; feature_at 2 END 0 false 20]
  = Ok [feature_at 2 END 0 false 20; feature_at 1 START 0 false 10].
Proof.
  destruct (@sorted_features_valid start_key
              [feature_at 1 START 0 false 10; feature_at 2 END 0 false 20]
              (feature_at 1 START 0 false 10))
    as (sfs & Hok & _ & Hsfs).
  - left. reflexivity.
  - intros f [<-|[<-|[]]]; split; reflexivity.
  - rewrite Hok, Hsfs. reflexivity.
Defined.

(** ** The result of the piece orderer *)

Lemma same_set_spec (a b : list nat) :
  same_set a b = true <-> (forall x, In x a <-> In x b).
Proof.
  unfold same_set. rewrite andb_true_iff, !forallb_forall. split.
  - intros [Hab Hba] x. split; intros Hx.
    + apply contains_In, Hab, Hx.
    + apply contains_In, Hba, Hx.
  - intros Heq. split; intros x Hx; apply contains_In, Heq, Hx.
Qed.

Lemma sort_pieces_fuel_more `{PairCmpKey} (T : TranscriptInterp)
  (fuel extra : nat) (r : result (list nat)) :
  sort_pieces_fuel fuel T = Some r -> sort_pieces_fuel (fuel + extra) T = Some r.
Proof.
  unfold sort_pieces_fuel.
  destruct (_extend_to_end fuel T (take 1 (transcribed_pieces T)) true)
    as [r1|] eqn:H1; [|discriminate].
  rewrite (_extend_to_end_more_fuel _ _ _ extra _ _ H1).
  destruct r1 as [o1|e1]; [|trivial].
  destruct (_extend_to_end fuel T o1 false) as [r2|] eqn:H2; [|discriminate].
  rewrite (_extend_to_end_more_fuel _ _ _ extra _ _ H2). trivial.
Qed.

(** X9: the two [while True] loops of [sort_pieces] always come to an end:
    one more turn than the transcript has pieces is enough for each, and the
    result does not depend on the number of turns allowed, as long as they
    suffice. *)
Theorem sort_pieces_always_ends `{PairCmpKey} (T : TranscriptInterp) :
  exists r,
    sort_pieces T = Some r
    /\ (forall fuel, (length (transcribed_pieces T) < fuel)%nat ->
          sort_pieces_fuel fuel T = Some r)
    /\ (forall fuel r', sort_pieces_fuel fuel T = Some r' -> r' = r).
Proof.
  destruct (sort_pieces_terminates T) as (r & Hr & Hmore).
  exists r. split; [exact Hr|]. split.
  - intros fuel Hfuel.
    replace fuel with (S (length (transcribed_pieces T))
                       + (fuel - S (length (transcribed_pieces T))))%nat by lia.
    apply Hmore.
  - intros fuel r' Hr'.
    apply (sort_pieces_fuel_more T fuel (S (length (transcribed_pieces T))))
      in Hr'.
    rewrite Nat.add_comm, Hmore in Hr'. congruence.
Qed.

(** X10: when [sort_pieces] returns an ordering, it holds no piece twice and
    exactly the pieces of the transcript; so for a transcript that lists no
    piece twice it is a rearrangement of its pieces, of the same length. *)
Theorem sort_pieces_result `{PairCmpKey} (T : TranscriptInterp)
  (ordered : list nat) :
  sort_pieces T = Some (Ok ordered) ->
  List.NoDup ordered
  /\ (forall p, In p ordered <-> In p (transcribed_pieces T))
  /\ (List.NoDup (transcribed_pieces T) ->
      Permutation ordered (transcribed_pieces T)
      /\ length ordered = length (transcribed_pieces T)).
Proof.
  unfold sort_pieces, sort_pieces_fuel.
  destruct (take_1_facts (transcribed_pieces T)) as (Hnd & Hincl & Hlen).
  set (n := S (length (transcribed_pieces T))).
  destruct Hlen as [Hnil|Hlen].
  { rewrite Hnil. cbn. discriminate. }
  destruct (_extend_to_end_total T true n (take 1 (transcribed_pieces T)))
    as (r1 & Hr1 & Hf1); auto; [unfold n; lia|].
  rewrite Hr1. destruct r1 as [o1|e1]; [|discriminate].
  destruct (Hf1 o1 eq_refl) as (Hnd1 & Hincl1 & Hlen1).
  destruct (_extend_to_end_total T false n o1) as (r2 & Hr2 & Hf2); auto;
    [unfold n; lia|].
  rewrite Hr2. destruct r2 as [o2|e2]; [|discriminate].
  destruct (Hf2 o2 eq_refl) as (Hnd2 & _ & _).
  destruct (same_set o2 (transcribed_pieces T)) eqn:Hset; cbn [negb];
    [|discriminate].
  intros [= <-]. pose proof (proj1 (same_set_spec _ _) Hset) as Hsame.
  split; [exact Hnd2|]. split; [exact Hsame|].
  intros Hndp.
  assert (Hperm : Permutation o2 (transcribed_pieces T))
    by (apply Stdlib.Sorting.Permutation.NoDup_Permutation; assumption).
  split; [exact Hperm|]. apply Permutation_length, Hperm.
Qed.

Lemma sort_pieces_result_witness :
  List.NoDup [1%nat; 2%nat]
  /\ (forall p, In p [1%nat; 2%nat] <-> In p (transcribed_pieces code_two_pieces))
  /\ (List.NoDup (transcribed_pieces code_two_pieces) ->
      Permutation [1%nat; 2%nat] (transcribed_pieces code_two_pieces)
      /\ length [1%nat; 2%nat] = length (transcribed_pieces code_two_pieces)).
Proof.
  apply (@sort_pieces_result pair_id_key code_two_pieces [1%nat; 2%nat]).
  reflexivity.
Defined.

Lemma links_without_pairs `{PairCmpKey} (T : TranscriptInterp) (p : nat) :
  pairs T = [] ->
  get_downstream_link T p = Ok None /\ get_upstream_link T p = Ok None.
Proof.
  intros Hnone.
  split; apply _links_list2link_none; intros x Hx;
    apply In_find_matching_links in Hx; destruct Hx as [Hx _];
    rewrite Hnone in Hx; destruct Hx.
Qed.

(** X11: on a transcript without UpDownPair records nothing is reachable
    from the first piece: [sort_pieces] returns that piece alone when the
    transcript has no other piece, fails on its final assertion when it has
    (the unreachable piece is not dropped silently), and fails with an
    IndexError when the transcript has no piece at all. *)
Theorem sort_pieces_without_pairs `{PairCmpKey} (T : TranscriptInterp) :
  pairs T = [] ->
  sort_pieces T =
  Some (match transcribed_pieces T with
        | [] => Raise IndexError
        | seed :: others =>
            if forallb (fun p => Nat.eqb p seed) others then Ok [seed]
            else Raise AssertionError
        end).
Proof.
  intros Hnone. unfold sort_pieces, sort_pieces_fuel.
  destruct (transcribed_pieces T) as [|seed others]; [reflexivity|].
  change (take 1 (seed :: others)) with [seed].
  assert (Hstep : forall dir, _extend_step T [seed] dir = Ok (inl [seed])).
  { intros dir. unfold _extend_step.
    destruct (links_without_pairs T seed Hnone) as [Hd Hu].
    destruct dir; cbn [latest first mbind result_bind]; rewrite ?Hd, ?Hu;
      reflexivity. }
  cbn [length _extend_to_end]. rewrite !Hstep.
  unfold same_set. cbn [forallb contains existsb].
  rewrite (Nat.eqb_refl seed). cbn [orb andb].
  assert (Hext : forallb (fun x => (x =? seed)%nat || false) others
                 = forallb (fun p => (p =? seed)%nat) others).
  { clear. induction others as [|x others IH]; [reflexivity|].
    cbn. rewrite IH, orb_false_r. reflexivity. }
  rewrite Hext.
  destruct (forallb (fun p => (p =? seed)%nat) others); reflexivity.
Qed.

Lemma sort_pieces_without_pairs_witness :
  @sort_pieces pair_id_key
     {| transcribed_pieces := [1%nat; 2%nat]; pairs := [];
        session_features := []; piece_features := fun _ => [] |}
  = Some (Raise AssertionError).
Proof.
  apply (@sort_pieces_without_pairs pair_id_key
           {| transcribed_pieces := [1%nat; 2%nat]; pairs := [];
              session_features := []; piece_features := fun _ => [] |}).
  reflexivity.
Defined.

(** X12: [get_upstream_link] of a piece considers the pairs of the transcript
    whose [downstream] slot is a DownstreamFeature of the piece; it returns
    none when there is none, the first of them when each has the position
    key of the one before it, and raises IndecipherableLinkageError
    otherwise. *)
Theorem get_upstream_link_cases `{PairCmpKey} (T : TranscriptInterp)
  (piece : nat) :
  let links :=
    _find_matching_links T (features_of_piece T DownstreamFeature piece) true in
  (forall x, In x links <->
             In x (pairs T) /\
             exists d, In d (session_features T) /\ f_class d = DownstreamFeature
                       /\ In piece (f_transcribed_pieces d)
                       /\ slot_is (downstream x) d = true)
  /\ get_upstream_link T piece =
     match links with
     | [] => Ok None
     | l :: rest =>
         if all_adjacent_match link_positional_match l rest then Ok (Some l)
         else Raise IndecipherableLinkageError
     end.
Proof.
  intros links. split.
  - intros x. apply (In_links_of_piece T DownstreamFeature true piece x).
  - unfold get_upstream_link. apply _links_list2link_cases.
Qed.

(** ** The stream of the interpreter *)

Lemma sorted_features_Permutation `{PosCmpKey} (features sfs : list Feature) :
  sorted_features features = Ok sfs -> Permutation sfs features.
Proof.
  unfold sorted_features.
  destruct (negb (all_equal_first Nat.eqb f_coordinates features)); [discriminate|].
  destruct (negb (all_equal_first Bool.eqb f_is_plus_strand features));
    [discriminate|].
  destruct (first _) as [f0|e]; [|discriminate]. cbn [mbind result_bind].
  destruct (negb (f_is_plus_strand f0)); intros [= <-].
  - rewrite <- Permutation_rev. apply sorted_Permutation.
  - apply sorted_Permutation.
Qed.

Lemma transition_groups_replay (piece : nat) (groups : list (list Feature)) :
  forall status out r,
    transition_groups status piece groups = (out, r) ->
    Forall (fun t => triple_piece t = piece) out
    /\ (forall status', r = Ok status' -> map triple_group out = groups)
    /\ forall gs2 sts2,
         match r with
         | Ok status' => replay status' gs2 = Ok sts2
         | Raise _ => gs2 = [] /\ sts2 = []
         end ->
         replay status (map triple_group out ++ gs2)
         = Ok (map triple_status out ++ sts2)%list.
Proof.
  induction groups as [|g groups IH]; intros status out r; cbn [transition_groups].
  - intros [= <- <-]. split; [constructor|]. split; [reflexivity|].
    intros gs2 sts2 Hrest. exact Hrest.
  - destruct (update_status status g) as [s1|e] eqn:Hg.
    + destruct (transition_groups s1 piece groups) as [out1 r1] eqn:Hrec.
      intros [= <- <-]. destruct (IH s1 out1 r1 Hrec) as (Hp & Hgs & Hrep).
      split; [constructor; [reflexivity|exact Hp]|]. split.
      * intros status' Hr. cbn. f_equal. apply (Hgs status' Hr).
      * intros gs2 sts2 Hrest. cbn [map app replay triple_group triple_status fst snd].
        rewrite Hg. cbn [mbind result_bind].
        change (fst (fst (g, s1, piece))) with g.
        rewrite (Hrep gs2 sts2 Hrest). reflexivity.
    + intros [= <- <-]. split; [constructor|]. split; [discriminate|].
      intros gs2 sts2 [-> ->]. reflexivity.
Qed.

Lemma transition_pieces_replay `{PosCmpKey} (T : TranscriptInterp)
  (pieces : list nat) (status : TranscriptStatus) (out : list triple)
  (r : option exn) :
  transition_pieces T status pieces = (out, r) ->
  replay status (map triple_group out) = Ok (map triple_status out).
Proof.
  revert status out r.
  induction pieces as [|piece rest IH]; intros status out r;
    cbn [transition_pieces].
  - intros [= <- <-]. reflexivity.
  - destruct (sorted_features (piece_features T piece)) as [sfs|e].
    2:{ intros [= <- <-]. reflexivity. }
    destruct (transition_groups status piece (full_stack_matches sfs))
      as [out1 [s1|e]] eqn:Hg.
    + destruct (transition_pieces T s1 rest) as [out2 r2] eqn:Hrest.
      intros [= <- <-]. rewrite !map_app.
      apply (transition_groups_replay _ _ _ _ _ Hg). cbn.
      apply (IH s1 out2 r2 Hrest).
    + intros [= <- <-].
      destruct (transition_groups_replay _ _ _ _ _ Hg) as (_ & _ & Hrep).
      specialize (Hrep [] [] (conj eq_refl eq_refl)).
      rewrite !app_nil_r in Hrep. exact Hrep.
Qed.

Lemma transition_pieces_cover `{PosCmpKey} (T : TranscriptInterp)
  (pieces : list nat) (status : TranscriptStatus) (out : list triple) :
  transition_pieces T status pieces = (out, None) ->
  map (fun t => (triple_group t, triple_piece t)) out
  = flat_map (fun p => map (fun g => (g, p)) (piece_groups T p)) pieces
  /\ Permutation (concat (map triple_group out))
                 (flat_map (piece_features T) pieces).
Proof.
  revert status out.
  induction pieces as [|piece rest IH]; intros status out;
    cbn [transition_pieces].
  - intros [= <-]. split; reflexivity.
  - cbn [flat_map].
    destruct (sorted_features (piece_features T piece)) as [sfs|e] eqn:Hsf;
      [|discriminate].
    assert (Hpg : piece_groups T piece = full_stack_matches sfs)
      by (unfold piece_groups; rewrite Hsf; reflexivity).
    destruct (transition_groups status piece (full_stack_matches sfs))
      as [out1 [s1|e]] eqn:Hg; [|discriminate].
    destruct (transition_pieces T s1 rest) as [out2 r2] eqn:Hrest.
    intros [= <- ->]. destruct (IH s1 out2 Hrest) as [IH1 IH2].
    destruct (transition_groups_replay _ _ _ _ _ Hg) as (Hp & Hgs & _).
    specialize (Hgs s1 eq_refl).
    split.
    + rewrite map_app, IH1. f_equal. rewrite Hpg.
      rewrite <- Hgs. rewrite map_map. apply map_ext_in.
      intros t Ht. rewrite Forall_forall in Hp. rewrite (Hp t Ht). reflexivity.
    + rewrite map_app, concat_app, Hgs, IH2.
      apply Permutation_app_tail.
      rewrite full_stack_matches_Permutation.
      apply (sorted_features_Permutation _ _ Hsf).
Qed.

(** X13: the status each triple of the stream of [transition_5p_to_3p]
    carries is the status of the machine after replaying, from the initial
    status, the groups of all the triples up to it: the snapshots are exactly
    what [replay] computes for the groups yielded, also when the stream
    stops on an exception. *)
Theorem transition_snapshots_are_replay `{PosCmpKey} `{PairCmpKey}
  (T : TranscriptInterp) (out : list triple) (r : option exn) :
  transition_5p_to_3p T = Some (out, r) ->
  replay initial_status (map triple_group out) = Ok (map triple_status out).
Proof.
  unfold transition_5p_to_3p.
  destruct (sort_pieces T) as [[pieces|e]|]; [| |discriminate].
  - intros [= Hrun]. apply (transition_pieces_replay T pieces _ _ r Hrun).
  - intros [= <- <-]. reflexivity.
Qed.

Lemma transition_snapshots_are_replay_witness :
  exists out,
    @transition_5p_to_3p start_key pair_id_key one_piece_interp = Some (out, None)
    /\ replay initial_status (map triple_group out) = Ok (map triple_status out).
Proof.
  eexists. split; [reflexivity|].
  apply (@transition_snapshots_are_replay start_key pair_id_key
           one_piece_interp _ None).
  reflexivity.
Defined.

(** X14: a stream of [transition_5p_to_3p] that ends normally yields, piece
    after piece in the order [sort_pieces] gives, the groups of each piece
    with that piece attached; so the groups yielded hold every feature of
    every piece of the ordering exactly once. *)
Theorem transition_covers_pieces `{PosCmpKey} `{PairCmpKey}
  (T : TranscriptInterp) (out : list triple) :
  transition_5p_to_3p T = Some (out, None) ->
  exists pieces,
    sort_pieces T = Some (Ok pieces)
    /\ map (fun t => (triple_group t, triple_piece t)) out
       = flat_map (fun p => map (fun g => (g, p)) (piece_groups T p)) pieces
    /\ Permutation (concat (map triple_group out))
                   (flat_map (piece_features T) pieces).
Proof.
  unfold transition_5p_to_3p.
  destruct (sort_pieces T) as [[pieces|e]|]; [| |discriminate].
  - intros [= Hrun]. exists pieces. split; [reflexivity|].
    apply (transition_pieces_cover T pieces _ _ Hrun).
  - discriminate.
Qed.

Lemma transition_covers_pieces_witness :
  exists out pieces,
    @transition_5p_to_3p start_key pair_id_key one_piece_interp = Some (out, None)
    /\ @sort_pieces pair_id_key one_piece_interp = Some (Ok pieces)
    /\ Permutation (concat (map triple_group out))
                   (flat_map (piece_features one_piece_interp) pieces).
Proof.
  destruct (@transition_covers_pieces start_key pair_id_key one_piece_interp
              _ eq_refl) as (pieces & Hs & _ & Hp).
  eexists. exists pieces. split; [reflexivity|]. split; assumption.
Defined.

(** ** The link protocol of the handlers *)

Lemma setattr_not_ValueError (w : world) (t : option nat) (a : string) (v : value) :
  setattr w t a v <> Raise ValueError.
Proof. unfold setattr. destruct t; discriminate. Qed.

Lemma list_append_not_ValueError (w : world) (t : option nat) (a : string)
  (x : option nat) :
  list_append w t a x <> Raise ValueError.
Proof.
  unfold list_append, getattr. destruct t as [r|]; [|discriminate].
  destruct (r_attrs (records w r) !! a) as [[]|]; cbn; try discriminate.
Qed.

Ltac eval_kinds :=
  cbn [isinstance_any existsb _valid_links];
  repeat match goal with
  | |- context [isinstance ?k ?c] =>
      let v := eval vm_compute in (isinstance k c) in
      change (isinstance k c) with v
  end;
  cbn [orb andb].

Ltac kind_cases w self other :=
  destruct (h_kind (handlers w self)) eqn:?Kself;
  destruct (h_kind (handlers w other)) eqn:?Kother; eval_kinds.

(** X15: [link_to] raises the link-kind error (a ValueError) exactly when the
    kind of the other handler is not among the [_valid_links] of the
    handler, and [de_link] raises it for every such kind too; a handler of
    any other kind is never linked, and never silently ignored. *)
Theorem link_kind_error (self other : nat) (w : world) :
  (link_to self other w = Raise ValueError <->
   isinstance_any (h_kind (handlers w other))
                  (_valid_links (h_kind (handlers w self))) = false)
  /\ (isinstance_any (h_kind (handlers w other))
                     (_valid_links (h_kind (handlers w self))) = false ->
      de_link self other w = Raise ValueError).
Proof.
  unfold link_to, de_link, stream_link_to, stream_de_link, FeatureHandler_link_to.
  kind_cases w self other;
    (split; [split|]); intros Hx; try reflexivity; try discriminate;
    exfalso;
    repeat match goal with
    | H : setattr _ _ _ _ = Raise ValueError |- _ =>
        apply setattr_not_ValueError in H; exact H
    | H : list_append _ _ _ _ = Raise ValueError |- _ =>
        apply list_append_not_ValueError in H; exact H
    | H : match ?r with _ => _ end = Raise ValueError |- _ =>
        let E := fresh "E" in
        destruct r eqn:E;
        [discriminate
        |match type of E with _ = Raise ?e => destruct e; try discriminate end]
    end.
Qed.

Lemma setattr_frame (w w' : world) (t : option nat) (a : string) (v : value) :
  setattr w t a v = Ok w' ->
  handlers w' = handlers w
  /\ (forall r, Some r <> t -> records w' r = records w r)
  /\ (forall r, r_class (records w' r) = r_class (records w r)).
Proof.
  unfold setattr. destruct t as [r0|]; [|discriminate]. intros [= <-]. cbn.
  split; [reflexivity|]. split; intros r.
  - intros Hr. apply fn_lookup_insert_ne. congruence.
  - unfold insert, fn_insert. destruct (decide (r0 = r)) as [->|]; reflexivity.
Qed.






(** For the pairs of kinds of [link_collection], linking is appending to
    that collection of the other record and de-linking is removing from
    it. *)
Lemma link_to_collection (self other : nat) (w : world) (coll : string) :
  link_collection (h_kind (handlers w self)) (h_kind (handlers w other))
  = Some coll ->
  link_to self other w
  = list_append w (h_data (handlers w other)) coll (h_data (handlers w self))
  /\ de_link self other w
     = list_remove w (h_data (handlers w other)) coll (h_data (handlers w self)).
Proof.
  unfold link_to, de_link, stream_link_to, stream_de_link, FeatureHandler_link_to.
  kind_cases w self other; cbn; intros [= <-]; split; try reflexivity;
    match goal with
    | |- match ?r with _ => _ end = _ =>
        let e := fresh "e" in
        destruct r as [?|e]; [reflexivity|destruct e; reflexivity]
    end.
Qed.


Lemma remove_first_absent (x : option nat) (l : list (option nat)) :
  ~ In x l -> remove_first x l = None.
Proof.
  induction l as [|y l IH]; intros Hx; cbn; [reflexivity|].
  rewrite bool_decide_eq_false_2 by (intros ->; apply Hx; left; reflexivity).
  rewrite IH; [reflexivity|]. intros Hin. apply Hx. right. exact Hin.
Qed.




(** X18: de-linking what is not linked fails: for the same pairs of kinds, a
    [de_link] of a record that is not in the collection of the other record
    raises a ValueError, and nothing is removed. *)
Theorem de_link_absent_fails (a b rb : nat) (w : world) (coll : string)
  (l : list (option nat)) :
  link_collection (h_kind (handlers w a)) (h_kind (handlers w b)) = Some coll ->
  h_data (handlers w b) = Some rb ->
  r_attrs (records w rb) !! coll = Some (VList l) ->
  ~ In (h_data (handlers w a)) l ->
  de_link a b w = Raise ValueError.
Proof.
  intros Hcoll Db Hl Habsent.
  destruct (link_to_collection a b w coll Hcoll) as [_ ->].
  rewrite Db. unfold list_remove, getattr. rewrite Hl.
  cbn [mbind result_bind]. rewrite (remove_first_absent _ _ Habsent). reflexivity.
Qed.

Lemma de_link_absent_fails_witness :
  de_link 3 1 example_world = Raise ValueError.
Proof.
  apply (de_link_absent_fails 3 1 10 example_world "transcribed_pieces" []);
    try reflexivity.
  intros [].
Defined.



(** ** Copying attributes: the exclude list and the result *)

Lemma remove_each_cases (items s : list string) :
  match remove_each items s with
  | Ok s' =>
      List.NoDup items /\ incl items s
      /\ s' = List.filter (fun x => negb (bool_decide (x ∈ items))) s
  | Raise e => e = KeyError /\ ~ (List.NoDup items /\ incl items s)
  end.
Proof.
  revert s. induction items as [|item rest IH]; intros s; cbn [remove_each].
  - split; [constructor|]. split; [intros x []|].
    symmetry. apply filter_all_pass. intros x _.
    rewrite bool_decide_eq_false_2; [reflexivity|]. apply not_elem_of_nil.
  - unfold set_remove at 1.
    destruct (bool_decide (item ∈ s)) eqn:Hmem; cbn [mbind result_bind].
    + apply bool_decide_eq_true in Hmem. apply list_elem_of_In in Hmem.
      set (s1 := List.filter (fun x => negb (bool_decide (x = item))) s).
      assert (Hs1 : forall x, In x s1 <-> In x s /\ x <> item).
      { intros x. unfold s1. rewrite filter_In, negb_true_iff.
        rewrite bool_decide_eq_false. reflexivity. }
      specialize (IH s1). destruct (remove_each rest s1) as [s'|e].
      * destruct IH as (Hnd & Hincl & ->). split; [|split].
        -- constructor; [|exact Hnd]. intros Hin.
           apply Hincl, Hs1 in Hin. destruct Hin as [_ Hne]. congruence.
        -- intros x [<-|Hx]; [exact Hmem|]. apply Hincl, Hs1 in Hx. apply Hx.
        -- unfold s1. rewrite filter_filter. apply filter_ext. intros x.
           destruct (decide (x = item)) as [->|Hne].
           ++ rewrite bool_decide_eq_true_2 by reflexivity. cbn.
              rewrite bool_decide_eq_true_2; [reflexivity|]. left.
           ++ rewrite (bool_decide_eq_false_2 _ Hne). cbn.
              apply f_equal, bool_decide_ext. rewrite elem_of_cons. tauto.
      * destruct IH as [-> Hbad]. split; [reflexivity|].
        intros [Hnd Hincl]. apply Hbad. inversion Hnd as [|? ? Hnotin Hnd']; subst.
        split; [exact Hnd'|]. intros x Hx. apply Hs1. split.
        -- apply Hincl. right. exact Hx.
        -- intros ->. contradiction.
    + split; [reflexivity|]. intros [_ Hincl].
      apply bool_decide_eq_false in Hmem. apply Hmem, list_elem_of_In, Hincl.
      left. reflexivity.
Qed.

(** X20: the exclude list of [copy_data_attr_to_other] is not tolerant the
    way the identity fields are: when it names every excluded attribute once
    and only attributes of the include list, the call does what the call
    with those names taken out of the include list does; when it names an
    attribute that is not in the include list, or one twice, the call fails
    with a KeyError before anything is copied. *)
Theorem copy_exclude_list (class_dict : annotations_orm.cls -> list string)
  (self other : nat) (names excluded : list string) (w : world) :
  (List.NoDup excluded /\ incl excluded names ->
   copy_data_attr_to_other class_dict self other
     (Some (PyList names)) (Some (PyList excluded)) w
   = copy_data_attr_to_other class_dict self other
       (Some (PyList (List.filter (fun x => negb (bool_decide (x ∈ excluded)))
                                  names)))
       None w)
  /\ (~ (List.NoDup excluded /\ incl excluded names) ->
      copy_data_attr_to_other class_dict self other
        (Some (PyList names)) (Some (PyList excluded)) w
      = Raise KeyError).
Proof.
  unfold copy_data_attr_to_other. cbn [convert2list].
  pose proof (remove_each_cases excluded (remove_dups names)) as Hcases.
  assert (Hincl : incl excluded (remove_dups names) <-> incl excluded names).
  { unfold incl. split; intros Hi x Hx; specialize (Hi x Hx);
      apply list_elem_of_In; apply list_elem_of_In in Hi;
      apply elem_of_remove_dups; exact Hi. }
  destruct (remove_each excluded (remove_dups names)) as [s'|e];
    cbn [mbind result_bind].
  - destruct Hcases as (Hnd & Hi & ->). split.
    + intros _. rewrite remove_dups_filter. reflexivity.
    + intros Hbad. exfalso. apply Hbad. split; [exact Hnd|apply Hincl, Hi].
  - destruct Hcases as [-> Hbad]. split; [|reflexivity].
    intros [Hnd Hi]. exfalso. apply Hbad. split; [exact Hnd|apply Hincl, Hi].
Qed.

Section CopyItems.
Context (self other sd od : nat).

(** The first copy step leaves the attributes of the source as they are,
    also when source and target are the same record. *)
Lemma setattr_source_attrs (w : world) (item : string) (val : value) (a : string) :
  r_attrs (records w sd) !! item = Some val ->
  r_attrs (<[od := {| r_class := r_class (records w od);
                      r_attrs := <[item := val]> (r_attrs (records w od)) |}]>
             (records w) sd) !! a
  = r_attrs (records w sd) !! a.
Proof.
  intros Hval. unfold insert at 1, fn_insert.
  destruct (decide (od = sd)) as [->|]; [|reflexivity]. cbn.
  destruct (decide (item = a)) as [->|Hne].
  - rewrite lookup_insert_eq. symmetry. exact Hval.
  - apply lookup_insert_ne, Hne.
Qed.

Lemma copy_items_spec (items : list string) :
  forall w w',
    h_data (handlers w self) = Some sd ->
    h_data (handlers w other) = Some od ->
    copy_items self other items w = Ok w' ->
    handlers w' = handlers w
    /\ (forall r, r <> od -> records w' r = records w r)
    /\ r_class (records w' od) = r_class (records w od)
    /\ (forall a, r_attrs (records w' od) !! a
                  = if bool_decide (a ∈ items) then r_attrs (records w sd) !! a
                    else r_attrs (records w od) !! a)
    /\ (forall a, a ∈ items -> is_Some (r_attrs (records w sd) !! a)).
Proof.
  induction items as [|item rest IH]; intros w w' Hs Ho; cbn [copy_items].
  - intros [= <-]. repeat split; auto. intros a Ha. inversion Ha.
  - rewrite Hs, Ho. unfold getattr.
    destruct (r_attrs (records w sd) !! item) as [val|] eqn:Hval; [|discriminate].
    cbn [mbind result_bind setattr]. intros Hrun.
    apply IH in Hrun; [|exact Hs|exact Ho].
    destruct Hrun as (Hh & Hr & Hc & Ha & Hsome). cbn in *.
    split; [exact Hh|]. split; [|split; [|split]].
    + intros r Hne. rewrite (Hr r Hne). apply fn_lookup_insert_ne. congruence.
    + rewrite Hc, fn_lookup_insert. reflexivity.
    + intros a. rewrite Ha, (setattr_source_attrs w item val a Hval).
      rewrite fn_lookup_insert. cbn.
      destruct (decide (a ∈ rest)) as [Hin|Hnin].
      * rewrite !bool_decide_eq_true_2; auto. right. exact Hin.
      * rewrite (bool_decide_eq_false_2 _ Hnin).
        destruct (decide (a = item)) as [->|Hne].
        -- rewrite bool_decide_eq_true_2 by left.
           rewrite lookup_insert_eq. symmetry. exact Hval.
        -- rewrite bool_decide_eq_false_2.
           ++ apply lookup_insert_ne. congruence.
           ++ rewrite elem_of_cons. tauto.
    + intros a Hin. apply elem_of_cons in Hin. destruct Hin as [->|Hin].
      * rewrite Hval. eauto.
      * rewrite <- (setattr_source_attrs w item val a Hval). apply Hsome, Hin.
Qed.

Lemma copy_items_total (items : list string) :
  forall w,
    h_data (handlers w self) = Some sd ->
    h_data (handlers w other) = Some od ->
    match copy_items self other items w with
    | Ok _ => True
    | Raise e =>
        e = AttributeError
        /\ exists a, a ∈ items /\ r_attrs (records w sd) !! a = None
    end.
Proof.
  induction items as [|item rest IH]; intros w Hs Ho; cbn [copy_items];
    [exact I|].
  rewrite Hs, Ho. unfold getattr.
  destruct (r_attrs (records w sd) !! item) as [val|] eqn:Hval.
  - cbn [mbind result_bind setattr].
    match goal with |- match copy_items _ _ _ ?w1 with _ => _ end =>
      specialize (IH w1 Hs Ho); destruct (copy_items self other rest w1)
    end; [exact I|].
    destruct IH as (-> & a & Hin & Hnone). split; [reflexivity|].
    exists a. split; [right; exact Hin|].
    rewrite <- Hnone. symmetry. apply (setattr_source_attrs w item val a Hval).
  - cbn. split; [reflexivity|]. exists item. split; [left|exact Hval].
Qed.
End CopyItems.

(** X21: what a copy achieves: with both handlers bound and the attributes
    named in [copy_only], the call succeeds exactly when the source record
    has every named attribute other than [id] and [handler]; the target then
    holds the source's value for each of these, every other attribute of the
    target and every other record are as before; else the call fails with
    an AttributeError on a missing attribute. *)
Theorem copy_data_attr_result (class_dict : annotations_orm.cls -> list string)
  (self other sd od : nat) (names : list string) (w : world) :
  h_data (handlers w self) = Some sd ->
  h_data (handlers w other) = Some od ->
  let keep := List.filter (fun x => negb (never_copy x)) names in
  match copy_data_attr_to_other class_dict self other
          (Some (PyList names)) None w with
  | Ok w' =>
      (forall a, r_attrs (records w' od) !! a
                 = if bool_decide (a ∈ keep) then r_attrs (records w sd) !! a
                   else r_attrs (records w od) !! a)
      /\ (forall r, r <> od -> records w' r = records w r)
      /\ handlers w' = handlers w
      /\ (forall a, a ∈ keep -> is_Some (r_attrs (records w sd) !! a))
  | Raise e =>
      e = AttributeError
      /\ exists a, a ∈ keep /\ r_attrs (records w sd) !! a = None
  end.
Proof.
  intros Hs Ho keep. unfold copy_data_attr_to_other.
  cbn [convert2list mbind result_bind].
  rewrite discard_never_copy, <- remove_dups_filter. fold keep.
  pose proof (copy_items_total self other sd od (remove_dups keep) w Hs Ho) as Htot.
  pose proof (copy_items_spec self other sd od (remove_dups keep) w) as Hspec.
  destruct (copy_items self other (remove_dups keep) w) as [w'|e].
  - destruct (Hspec w' Hs Ho eq_refl) as (Hh & Hr & _ & Ha & Hsome).
    split; [|split; [exact Hr|split; [exact Hh|]]].
    + intros a. rewrite Ha. 
      rewrite (bool_decide_ext _ _ (elem_of_remove_dups keep a)). reflexivity.
    + intros a Hin. apply Hsome, elem_of_remove_dups, Hin.
  - destruct Htot as (-> & a & Hin & Hnone). split; [reflexivity|].
    exists a. split; [apply elem_of_remove_dups, Hin|exact Hnone].
Qed.

Lemma copy_data_attr_result_witness :
  exists w',
    copy_data_attr_to_other (fun _ => []) 1 2
      (Some (PyList ["given_id"; "id"])) None example_world = Ok w'
    /\ r_attrs (records w' 11) !! "given_id"
       = r_attrs (records example_world 10) !! "given_id"
    /\ r_attrs (records w' 11) !! "id"
       = r_attrs (records example_world 11) !! "id".
Proof.
  pose proof (copy_data_attr_result (fun _ => []) 1 2 10 11
                ["given_id"; "id"] example_world eq_refl eq_refl) as H.
  cbv zeta in H.
  destruct (copy_data_attr_to_other (fun _ => []) 1 2
              (Some (PyList ["given_id"; "id"])) None example_world) as [w'|e].
  - exists w'. split; [reflexivity|]. destruct H as (Ha & _).
    split; [apply (Ha "given_id")|apply (Ha "id")].
  - exfalso. destruct H as (_ & a & Hin & Hnone).
    apply list_elem_of_In in Hin. vm_compute in Hin.
    destruct Hin as [<-|[]]. vm_compute in Hnone. discriminate.
Defined.

Lemma copy_items_frame (self other : nat) (items : list string) :
  forall w w',
    copy_items self other items w = Ok w' ->
    handlers w' = handlers w
    /\ forall r, r_class (records w' r) = r_class (records w r).
Proof.
  induction items as [|item rest IH]; intros w w'; cbn [copy_items].
  - intros [= <-]. split; reflexivity.
  - destruct (getattr w (h_data (handlers w self)) item) as [val|e];
      [|discriminate].
    cbn [mbind result_bind].
    destruct (setattr w (h_data (handlers w other)) item val) as [w1|e] eqn:Hset;
      [|discriminate].
    cbn [mbind result_bind]. intros Hrun. apply IH in Hrun.
    apply setattr_frame in Hset. destruct Hrun as [Hh Hc], Hset as (Hh1 & _ & Hc1).
    split; [congruence|]. intros r. rewrite Hc. apply Hc1.
Qed.

Lemma copy_items_bound (self other : nat) (items : list string) (w w' : world) :
  items <> [] ->
  copy_items self other items w = Ok w' ->
  exists sd od, h_data (handlers w self) = Some sd
                /\ h_data (handlers w other) = Some od.
Proof.
  destruct items as [|item rest]; [congruence|]. intros _. cbn [copy_items].
  unfold getattr, setattr.
  destruct (h_data (handlers w self)) as [sd|]; [|discriminate].
  destruct (r_attrs (records w sd) !! item); [|discriminate].
  cbn [mbind result_bind].
  destruct (h_data (handlers w other)) as [od|]; [|discriminate]. eauto.
Qed.

Lemma copy_items_idempotent (self other : nat) (items : list string)
  (w w' : world) :
  copy_items self other items w = Ok w' ->
  exists w'', copy_items self other items w' = Ok w''
              /\ (forall r, records w'' r = records w' r)
              /\ handlers w'' = handlers w'.
Proof.
  intros Hrun. destruct items as [|item rest] eqn:Hitems.
  { exists w'. repeat split; reflexivity. }
  rewrite <- Hitems in *.
  destruct (copy_items_bound self other items w w') as (sd & od & Hs & Ho);
    [congruence|exact Hrun|].
  destruct (copy_items_spec self other sd od items w w' Hs Ho Hrun)
    as (Hh & Hr & Hc & Ha & Hsome).
  assert (Hs' : h_data (handlers w' self) = Some sd) by (rewrite Hh; exact Hs).
  assert (Ho' : h_data (handlers w' other) = Some od) by (rewrite Hh; exact Ho).
  assert (Hsrc : forall a, a ∈ items ->
            r_attrs (records w' sd) !! a = r_attrs (records w sd) !! a).
  { intros a Hin. destruct (decide (sd = od)) as [->|Hne].
    - rewrite Ha, bool_decide_eq_true_2 by exact Hin. reflexivity.
    - rewrite (Hr sd Hne). reflexivity. }
  pose proof (copy_items_total self other sd od items w' Hs' Ho') as Htot.
  destruct (copy_items self other items w') as [w''|e] eqn:Hrun2.
  2:{ exfalso. destruct Htot as (_ & a & Hin & Hnone).
      rewrite (Hsrc a Hin) in Hnone. destruct (Hsome a Hin) as [v Hv]. congruence. }
  destruct (copy_items_spec self other sd od items w' w'' Hs' Ho' Hrun2)
    as (Hh2 & Hr2 & Hc2 & Ha2 & _).
  exists w''. split; [reflexivity|]. split; [|exact Hh2].
  intros r. destruct (decide (r = od)) as [->|Hne]; [|apply Hr2, Hne].
  assert (Hattrs : r_attrs (records w'' od) = r_attrs (records w' od)).
  { apply map_eq. intros a. rewrite Ha2.
    destruct (decide (a ∈ items)) as [Hin|Hnin].
    - rewrite bool_decide_eq_true_2 by exact Hin.
      rewrite (Hsrc a Hin), Ha, bool_decide_eq_true_2 by exact Hin. reflexivity.
    - rewrite bool_decide_eq_false_2 by exact Hnin. reflexivity. }
  destruct (records w'' od), (records w' od). cbn in *. congruence.
Qed.

(** X22: copying is idempotent: after a call of [copy_data_attr_to_other]
    that returned, the same call again returns too and changes nothing, no
    record and no handler. *)
Theorem copy_data_attr_idempotent
  (class_dict : annotations_orm.cls -> list string) (self other : nat)
  (copy_only do_not_copy : option pyarg) (w w' : world) :
  copy_data_attr_to_other class_dict self other copy_only do_not_copy w = Ok w' ->
  exists w'',
    copy_data_attr_to_other class_dict self other copy_only do_not_copy w' = Ok w''
    /\ (forall r, records w'' r = records w' r)
    /\ handlers w'' = handlers w'.
Proof.
  unfold copy_data_attr_to_other. intros Hrun.
  assert (Hnames : forall w0,
            handlers w0 = handlers w ->
            (forall r, r_class (records w0 r) = r_class (records w r)) ->
            public_names class_dict w0 self = public_names class_dict w self).
  { intros w0 Hh Hc. unfold public_names. rewrite Hh.
    destruct (h_data (handlers w self)); [|reflexivity].
    rewrite Hc. reflexivity. }
  destruct copy_only as [c|], do_not_copy as [d|];
    cbn [mbind result_bind] in Hrun |- *.
  - destruct (remove_each (convert2list d) (remove_dups (convert2list c)))
      as [to_copy|e]; [|discriminate].
    cbn [mbind result_bind] in Hrun |- *.
    apply (copy_items_idempotent _ _ _ _ _ Hrun).
  - apply (copy_items_idempotent _ _ _ _ _ Hrun).
  - destruct (remove_each (convert2list d)
                (remove_dups (public_names class_dict w self)))
      as [to_copy|e] eqn:Hex; [|discriminate].
    cbn [mbind result_bind] in Hrun.
    destruct (copy_items_frame _ _ _ _ _ Hrun) as [Hh Hc].
    rewrite (Hnames w' Hh Hc), Hex. cbn [mbind result_bind].
    apply (copy_items_idempotent _ _ _ _ _ Hrun).
  - destruct (copy_items_frame _ _ _ _ _ Hrun) as [Hh Hc].
    rewrite (Hnames w' Hh Hc). apply (copy_items_idempotent _ _ _ _ _ Hrun).
Qed.

Lemma copy_data_attr_idempotent_witness :
  exists w' w'',
    copy_data_attr_to_other (fun _ => ["given_id"; "type"; "_sa_state"]) 1 2
      None (Some (PyObj "type")) example_world = Ok w'
    /\ copy_data_attr_to_other (fun _ => ["given_id"; "type"; "_sa_state"]) 1 2
         None (Some (PyObj "type")) w' = Ok w''
    /\ (forall r, records w'' r = records w' r).
Proof.
  eexists.
  destruct (copy_data_attr_idempotent
              (fun _ => ["given_id"; "type"; "_sa_state"]) 1 2
              None (Some (PyObj "type")) example_world _ eq_refl)
    as (w'' & Hrun & Hrec & _).
  exists w''. split; [reflexivity|]. split; assumption.
Defined.

(** X23: a handler that is bound again keeps being the back reference of the
    record it was bound to first: after two bindings of one handler to two
    records, both records name the handler, whose data is the second. *)
Theorem add_data_twice_keeps_back_reference (self r1 r2 : nat) (w w1 w2 : world) :
  add_data self r1 w = Ok w1 ->
  add_data self r2 w1 = Ok w2 ->
  r1 <> r2 ->
  h_data (handlers w2 self) = Some r2
  /\ r_attrs (records w2 r1) !! "handler" = Some (VHandler self)
  /\ r_attrs (records w2 r2) !! "handler" = Some (VHandler self).
Proof.
  unfold add_data. intros H1 H2 Hne.
  destruct (negb _) in H1; [discriminate|].
  destruct (negb _) in H2; [discriminate|].
  cbn [setattr] in H1, H2. injection H1 as <-. injection H2 as <-. cbn.
  rewrite !fn_lookup_insert. cbn. split; [reflexivity|]. split.
  - rewrite fn_lookup_insert_ne by congruence.
    rewrite fn_lookup_insert. cbn. apply lookup_insert_eq.
  - apply lookup_insert_eq.
Qed.

Lemma add_data_twice_keeps_back_reference_witness :
  exists w1 w2,
    add_data 1 10 example_world = Ok w1 /\ add_data 1 11 w1 = Ok w2
    /\ h_data (handlers w2 1) = Some 11%nat
    /\ r_attrs (records w2 10) !! "handler" = Some (VHandler 1)
    /\ r_attrs (records w2 11) !! "handler" = Some (VHandler 1).
Proof.
  eexists. eexists. split; [reflexivity|]. split; [reflexivity|].
  apply (add_data_twice_keeps_back_reference 1 10 11 example_world _ _
           eq_refl eq_refl).
  discriminate.
Defined.

(** ** numerify: the chunks of the stepper *)

Lemma step_to_end_done (fuel : nat) (s : numerify.Stepper) :
  numerify.st_end s <= numerify.st_at s -> numerify.step_to_end fuel s = Some [].
Proof.
  intros Hdone. destruct fuel; cbn;
    rewrite (proj2 (Z.ltb_ge _ _) Hdone); reflexivity.
Qed.

Lemma step_to_end_chunks (fuel : nat) :
  forall s : numerify.Stepper,
    0 < numerify.st_by s ->
    numerify.st_at s <= numerify.st_end s ->
    (Z.to_nat (numerify.st_end s - numerify.st_at s) <= fuel)%nat ->
    exists steps,
      numerify.step_to_end fuel s = Some steps
      /\ numerify.tiles (numerify.st_by s) (numerify.st_at s) steps
                        (numerify.st_end s)
      /\ Z.of_nat (length steps)
         = (numerify.st_end s - numerify.st_at s + numerify.st_by s - 1)
           / numerify.st_by s.
Proof.
  induction fuel as [|fuel IH]; intros [a e b]; cbn [numerify.st_at
    numerify.st_end numerify.st_by]; intros Hb Hle Hfuel.
  - assert (a = e) by lia. subst e.
    rewrite step_to_end_done by (cbn; lia).
    exists []. cbn. repeat split.
    symmetry. apply Z.div_small. lia.
  - destruct (Z.eq_dec a e) as [->|Hne].
    { rewrite step_to_end_done by (cbn; lia).
      exists []. cbn. repeat split.
      symmetry. apply Z.div_small. lia. }
    cbn [numerify.step_to_end numerify.step numerify.st_at numerify.st_end
         numerify.st_by].
    rewrite (proj2 (Z.ltb_lt a e)) by lia. cbn [negb].
    destruct (a + b <? e) eqn:Hnext.
    + apply Z.ltb_lt in Hnext.
      destruct (IH (numerify.mkStepper (a + b) e b)) as (rest & Hrun & Htiles & Hlen);
        cbn; try lia.
      rewrite Hrun. exists ((a, a + b) :: rest). cbn in *.
      split; [reflexivity|]. split.
      * repeat split; auto; lia.
      * rewrite Nat2Z.inj_succ, Hlen.
        replace (e - a + b - 1) with ((e - (a + b) + b - 1) + 1 * b) by lia.
        rewrite Z.div_add by lia. lia.
    + apply Z.ltb_ge in Hnext.
      rewrite step_to_end_done by (cbn; lia).
      exists [(a, e)]. cbn. split; [reflexivity|]. split.
      * repeat split; try lia. intros Hx. congruence.
      * change (Z.of_nat (length [(a, e)])) with 1.
        apply (Z.div_unique_pos _ _ 1 (e - a - 1)); lia.
Qed.

(** X24: with a positive step width the stepper comes to an end and cuts
    the range from its position to its end into chunks that lie end to end
    without gap or overlap, each as long as the step width except the last,
    which is shorter when the width does not divide the range; their number
    is the length of the range divided by the width, rounded up. *)
Theorem step_to_end_tiles (end_ by_ : Z) (fuel : nat) :
  0 < by_ -> 0 <= end_ -> (Z.to_nat end_ <= fuel)%nat ->
  exists steps,
    numerify.step_to_end fuel (numerify.Stepper_init end_ by_) = Some steps
    /\ numerify.tiles by_ 0 steps end_
    /\ Z.of_nat (length steps) = (end_ + by_ - 1) / by_.
Proof.
  intros Hb He Hfuel.
  destruct (step_to_end_chunks fuel (numerify.Stepper_init end_ by_))
    as (steps & Hrun & Htiles & Hlen).
  - exact Hb.
  - exact He.
  - change (Z.to_nat (end_ - 0) <= fuel)%nat. rewrite Z.sub_0_r. exact Hfuel.
  - exists steps. split; [exact Hrun|]. split; [exact Htiles|].
    change (Z.of_nat (length steps) = (end_ - 0 + by_ - 1) / by_) in Hlen.
    rewrite Z.sub_0_r in Hlen. exact Hlen.
Qed.

Lemma step_to_end_tiles_witness :
  exists steps,
    numerify.step_to_end 10 (numerify.Stepper_init 10 4) = Some steps
    /\ numerify.tiles 4 0 steps 10
    /\ Z.of_nat (length steps) = (10 + 4 - 1) / 4.
Proof.
  apply (step_to_end_tiles 10 4 10); lia.
Defined.

(** X25: with a step width that is not positive and a position before the
    end, the loop of [step_to_end] is never left: no number of turns
    suffices. *)
Theorem step_to_end_never_ends (s : numerify.Stepper) (fuel : nat) :
  numerify.st_by s <= 0 ->
  numerify.st_at s < numerify.st_end s ->
  numerify.step_to_end fuel s = None.
Proof.
  revert s. induction fuel as [|fuel IH]; intros [a e b]; cbn [numerify.st_at
    numerify.st_end numerify.st_by]; intros Hb Hlt;
    cbn [numerify.step_to_end numerify.step numerify.st_at numerify.st_end
         numerify.st_by];
    rewrite (proj2 (Z.ltb_lt a e) Hlt); cbn [negb]; [reflexivity|].
  rewrite (proj2 (Z.ltb_lt (a + b) e)) by lia.
  rewrite IH; [reflexivity| |]; cbn; lia.
Qed.

Lemma step_to_end_never_ends_witness :
  numerify.step_to_end 100 (numerify.Stepper_init 10 0) = None.
Proof.
  apply step_to_end_never_ends; cbn; lia.
Defined.

(** ** coverage_counter: the coverage bins *)

Lemma powers_StronglySorted (base : Z) (k a : nat) :
  2 <= base ->
  StronglySorted Z.lt (map (fun i => base ^ Z.of_nat i) (seq a k)).
Proof.
  intros Hbase. revert a. induction k as [|k IH]; intros a; cbn; constructor.
  - apply IH.
  - apply Forall_forall. intros x Hx. apply in_map_iff in Hx.
    destruct Hx as (j & <- & Hj). apply in_seq in Hj.
    apply Z.pow_lt_mono_r; lia.
Qed.

(** X26: for a base of at least 2 the coverage bins are strictly increasing:
    0, then the powers 1, base, base^2, ...; there are [n] of them when [n] is
    at least 1, and the single bin 0 otherwise. *)
Theorem setup_coverage_bins_increasing (base n : Z) :
  2 <= base ->
  StronglySorted Z.lt (coverage_counter.setup_coverage_bins base n)
  /\ Z.of_nat (length (coverage_counter.setup_coverage_bins base n)) = Z.max 1 n
  /\ forall i, (i < Z.to_nat (n - 1))%nat ->
       nth (S i) (coverage_counter.setup_coverage_bins base n) 0
       = base ^ Z.of_nat i.
Proof.
  intros Hbase. unfold coverage_counter.setup_coverage_bins. split; [|split].
  - constructor; [apply powers_StronglySorted, Hbase|].
    apply Forall_forall. intros x Hx. apply in_map_iff in Hx.
    destruct Hx as (j & <- & _). apply Z.pow_pos_nonneg; lia.
  - cbn [length]. rewrite length_map, length_seq. lia.
  - intros i Hi. cbn [nth].
    rewrite (nth_indep _ 0 (base ^ Z.of_nat 0))
      by (rewrite length_map, length_seq; exact Hi).
    rewrite (map_nth (fun i => base ^ Z.of_nat i)), seq_nth by exact Hi.
    reflexivity.
Qed.

Lemma setup_coverage_bins_increasing_witness :
  StronglySorted Z.lt (coverage_counter.setup_coverage_bins 3 6)
  /\ Z.of_nat (length (coverage_counter.setup_coverage_bins 3 6)) = Z.max 1 6.
Proof.
  destruct (setup_coverage_bins_increasing 3 6) as (H1 & H2 & _); [lia|].
  split; assumption.
Defined.
